(** * NCSN-TF2.0: annealed Langevin sampler, noise schedule and losses

    A shallow embedding of [generate.py] and [losses/losses.py].

    Tensors are a static shape together with a row-major buffer, as
    TensorFlow stores them.  Scalars are real numbers: the embedding
    idealises float32 arithmetic as arithmetic over [R].  Python
    exceptions are the [Raise] outcome of an error monad; the global
    TensorFlow random generator, the files written by the sampler and the
    output of [tf.print] are threaded explicitly as a [World]. *)

From Stdlib Require Import Reals Lra Lia List Arith ZArith Bool.
Import ListNotations.
Local Open Scope R_scope.

(** ** Outcomes of fallible code *)

Inductive res (A : Type) : Type :=
| Ret (a : A)
| Raise.
Arguments Ret {A} a.
Arguments Raise {A}.

Definition rbind {A B : Type} (r : res A) (k : A -> res B) : res B :=
  match r with
  | Ret a => k a
  | Raise => Raise
  end.

(** ** Tensors *)

Record Tensor : Type := mkTensor { shape : list nat; data : list R }.

Definition numel (s : list nat) : nat := fold_right Nat.mul 1%nat s.

(** A tensor built by TensorFlow always carries as many scalars as its
    shape announces. *)
Definition wf (t : Tensor) : Prop := length (data t) = numel (shape t).

Definition tget (t : Tensor) (k : nat) : R := nth k (data t) 0.

Definition tabulate (n : nat) (f : nat -> R) : list R := map f (seq 0 n).

Definition tmap (f : R -> R) (t : Tensor) : Tensor :=
  mkTensor (shape t) (map f (data t)).

(** [c * t] for a Python or rank-0 scalar [c]. *)
Definition smul (c : R) (t : Tensor) : Tensor := tmap (Rmult c) t.

(** [t * c] and [t + c] for a Python scalar [c]. *)
Definition muls (t : Tensor) (c : R) : Tensor := tmap (fun v => v * c) t.
Definition adds (t : Tensor) (c : R) : Tensor := tmap (fun v => v + c) t.

(** [sum_{j < n} f j]. *)
Fixpoint sumn (n : nat) (f : nat -> R) : R :=
  match n with
  | O => 0
  | S m => sumn m f + f m
  end.

(** *** Broadcasting

    Shapes are aligned from their last dimension, so the helpers work on
    reversed shapes and reversed multi-indices. *)

Fixpoint bshape_rev (a b : list nat) : res (list nat) :=
  match a, b with
  | [], _ => Ret b
  | _, [] => Ret a
  | x :: a', y :: b' =>
      match bshape_rev a' b' with
      | Raise => Raise
      | Ret r =>
          if (x =? y)%nat then Ret (x :: r)
          else if (x =? 1)%nat then Ret (y :: r)
          else if (y =? 1)%nat then Ret (x :: r)
          else Raise
      end
  end.

Definition broadcast_shape (a b : list nat) : res (list nat) :=
  match bshape_rev (rev a) (rev b) with
  | Ret r => Ret (rev r)
  | Raise => Raise
  end.

(** Flat row-major offset to multi-index (last dimension first) and back. *)
Fixpoint unravel_rev (srev : list nat) (k : nat) : list nat :=
  match srev with
  | [] => []
  | d :: r => (k mod d)%nat :: unravel_rev r (k / d)%nat
  end.

Fixpoint ravel_rev (srev idx : list nat) : nat :=
  match srev, idx with
  | d :: r, i :: ir => (i + d * ravel_rev r ir)%nat
  | _, _ => 0%nat
  end.

(** A dimension of extent 1 is read at index 0 whatever the output index. *)
Fixpoint clip_rev (srev idx : list nat) : list nat :=
  match srev, idx with
  | d :: r, i :: ir => (if (d =? 1)%nat then 0%nat else i) :: clip_rev r ir
  | _, _ => []
  end.

(** Offset, in an operand of shape [s_op], of the scalar that lands at
    offset [k] of the broadcast result of shape [s_out]. *)
Definition source_index (s_op s_out : list nat) (k : nat) : nat :=
  ravel_rev (rev s_op) (clip_rev (rev s_op) (unravel_rev (rev s_out) k)).

Definition broadcast2 (f : R -> R -> R) (a b : Tensor) : res Tensor :=
  match broadcast_shape (shape a) (shape b) with
  | Ret s =>
      Ret (mkTensor s
             (tabulate (numel s)
                (fun k => f (tget a (source_index (shape a) s k))
                            (tget b (source_index (shape b) s k)))))
  | Raise => Raise
  end.

Definition badd : Tensor -> Tensor -> res Tensor := broadcast2 Rplus.
Definition bsub : Tensor -> Tensor -> res Tensor := broadcast2 Rminus.
Definition bmul : Tensor -> Tensor -> res Tensor := broadcast2 Rmult.
Definition bdiv : Tensor -> Tensor -> res Tensor := broadcast2 Rdiv.

(** [tf.transpose(t)] with its default permutation: all axes reversed. *)
Definition transpose (t : Tensor) : Tensor :=
  let s := shape t in
  mkTensor (rev s)
    (tabulate (numel s)
       (fun k => tget t (ravel_rev (rev s) (rev (unravel_rev s k))))).

(** *** Reductions *)

(** [tf.reduce_sum(t, axis=ax)] for one axis. *)
Definition reduce_sum_axis (ax : nat) (t : Tensor) : res Tensor :=
  let s := shape t in
  if (ax <? length s)%nat then
    let d := nth ax s 0%nat in
    let outer := numel (firstn ax s) in
    let inner := numel (skipn (S ax) s) in
    Ret (mkTensor (firstn ax s ++ skipn (S ax) s)
           (tabulate (outer * inner)
              (fun k => sumn d (fun j =>
                 tget t ((k / inner * d + j) * inner + k mod inner)%nat))))
  else Raise.

(** [tf.reduce_sum(t, axis=axes)], the axes listed in increasing order as
    the source does: the last listed axis is summed out first, so that the
    remaining axis numbers stay valid. *)
Definition reduce_sum (axes : list nat) (t : Tensor) : res Tensor :=
  fold_right (fun ax acc => rbind acc (reduce_sum_axis ax)) (Ret t) axes.

(** [tf.norm(t, axis=axes)] with the default [ord='euclidean']: the square
    root of the sum of squares over the given axes. *)
Definition tf_norm (axes : list nat) (t : Tensor) : res Tensor :=
  rbind (reduce_sum axes (tmap Rsqr t)) (fun s => Ret (tmap sqrt s)).

(** [tf.norm(t, axis=-1)]. *)
Definition tf_norm_last (t : Tensor) : res Tensor :=
  match length (shape t) with
  | O => Raise
  | S r => tf_norm [r] t
  end.

(** [tf.reduce_mean(t)] over every axis. *)
Definition reduce_mean (t : Tensor) : R :=
  fold_right Rplus 0 (data t) / INR (length (data t)).

(** [tf.clip_by_value(t, lo, hi)]. *)
Definition clip_by_value (t : Tensor) (lo hi : R) : Tensor :=
  tmap (fun v => Rmax (Rmin v hi) lo) t.

(** [tf.concat([a, b], axis=0)]. *)
Definition concat0 (a b : Tensor) : res Tensor :=
  match shape a, shape b with
  | na :: sa, nb :: sb =>
      if list_eq_dec Nat.eq_dec sa sb
      then Ret (mkTensor ((na + nb)%nat :: sa) (data a ++ data b))
      else Raise
  | _, _ => Raise
  end.

(** [t.get_shape()[0]]. *)
Definition dim0 (t : Tensor) : res nat :=
  match shape t with
  | n :: _ => Ret n
  | [] => Raise
  end.

(** Rows [start .. start + cnt - 1] along axis 0. *)
Definition slice_rows (start cnt : nat) (x : Tensor) : Tensor :=
  let row := numel (tl (shape x)) in
  mkTensor (cnt :: tl (shape x))
    (firstn (cnt * row) (skipn (start * row) (data x))).

(** [tf.data.Dataset.from_tensor_slices(x).batch(b)]: consecutive groups of
    [b] rows, the last group keeping whatever is left. *)
Definition dataset_batch (b : nat) (x : Tensor) : res (list Tensor) :=
  match shape x with
  | [] => Raise
  | n :: _ =>
      if (b =? 0)%nat then Raise
      else Ret (map (fun j => slice_rows (j * b) (Nat.min b (n - j * b)) x)
                  (seq 0 ((n + b - 1) / b)))
  end.

(** [for image in batch]: the slices of a tensor along its first axis. *)
Definition unstack (t : Tensor) : res (list Tensor) :=
  match shape t with
  | [] => Raise
  | n :: s =>
      Ret (map (fun j => mkTensor s
                           (firstn (numel s) (skipn (j * numel s) (data t))))
             (seq 0 n))
  end.

(** [tf.keras.preprocessing.image.array_to_img]: it takes arrays of rank 3
    with 1, 3 or 4 channels and raises on anything else.  The embedding
    keeps the array it accepts, not the 8-bit pixels made from it. *)
Definition array_to_img (x : Tensor) : res Tensor :=
  match shape x with
  | [_; _; c] =>
      if ((c =? 1) || (c =? 3) || (c =? 4))%nat then Ret x else Raise
  | _ => Raise
  end.

(** The loop [for i in range(n_images)] of [save_as_grid]
    (generate.py:47-52): every image goes through [array_to_img] before it
    is pasted. *)
Fixpoint paste_images (images : list Tensor) : res unit :=
  match images with
  | [] => Ret tt
  | image :: rest =>
      rbind (array_to_img image) (fun _ => paste_images rest)
  end.

(** Python's [enumerate] and [range]. *)
Definition enumerate {A : Type} (l : list A) : list (nat * A) :=
  combine (seq 0 (length l)) l.

Definition range (n : nat) : list nat := seq 0 n.

(** ** losses/losses.py *)

Module Losses.

(** [loss_per_batch]; [num_L] stands for [configs.config_values.num_L]. *)
Definition loss_per_batch (num_L : nat)
    (score x_perturbed x sigmas : Tensor) : res R :=
  rbind (bmul sigmas score) (fun ss =>
  rbind (bsub x_perturbed x) (fun d =>
  rbind (bdiv d sigmas) (fun q =>
  rbind (badd ss q) (fun r =>
  rbind (tf_norm [1; 2]%nat r) (fun l_batch =>
  rbind (tf_norm_last l_batch) (fun l_batch =>
  let l_batch := tmap Rsqr l_batch in
  Ret (0.5 * reduce_mean l_batch / INR num_L))))))).

End Losses.

(** ** generate.py *)

(** [clamped]. *)
Definition clamped (x : Tensor) : Tensor := clip_by_value x 0 1.

(** [_preprocess_image_to_save]. *)
Definition _preprocess_image_to_save (x : Tensor) : Tensor :=
  let x := muls x 255 in
  let x := adds x 0.5 in
  clip_by_value x 0 255.

(** The score network is an opaque callable [model([x, idx_sigmas])]. *)
Definition Model : Type := Tensor -> list Z -> Tensor.

(** The TensorFlow random generator: a draw consumes generator state. *)
Class RandomSource (G : Type) : Type := {
  random_normal : list nat -> G -> Tensor * G;
  random_uniform : list nat -> G -> Tensor * G
}.

Section Sampler.

Context {G : Type} {RS : RandomSource G}.

(** What a run can observe or change besides its return value: the random
    generator, the grid snapshots written as [sigma{i}_t{t}.png], and the
    scalars sent to [tf.print]. *)
Record World : Type := mkWorld {
  rng : G;
  saved : list (nat * nat * Tensor);
  printed : list R
}.

Definition M (A : Type) : Type := World -> res (A * World).

Definition ret {A : Type} (a : A) : M A := fun w => Ret (a, w).

Definition bind {A B : Type} (c : M A) (k : A -> M B) : M B :=
  fun w => match c w with
           | Ret (a, w') => k a w'
           | Raise => Raise
           end.

Definition lift {A : Type} (r : res A) : M A :=
  fun w => match r with
           | Ret a => Ret (a, w)
           | Raise => Raise
           end.

Local Notation "x <- c1 ;; c2" := (bind c1 (fun x => c2))
  (at level 61, c1 at next level, right associativity).

Definition draw_normal (s : list nat) : M Tensor :=
  fun w => let (z, g) := random_normal s (rng w) in
           Ret (z, mkWorld g (saved w) (printed w)).

Definition draw_uniform (s : list nat) : M Tensor :=
  fun w => let (u, g) := random_uniform s (rng w) in
           Ret (u, mkWorld g (saved w) (printed w)).

(** [save_as_grid(images, save_directory + f'sigma{i}_t{t}.png')]
    (generate.py:31-55).  The shape is unpacked as
    [(n_images, height, width, channels)], which raises unless the rank is
    4; every image goes through [array_to_img] and is pasted; then the grid
    is saved.  The world keeps the name of the file and the tensor it
    shows. *)
Definition save_as_grid (images : Tensor) (i t : nat) : M unit :=
  fun w =>
    match shape images with
    | [_; _; _; _] =>
        rbind (unstack images) (fun ims =>
        rbind (paste_images ims) (fun _ =>
        Ret (tt,
             mkWorld (rng w) (saved w ++ [(i, t, images)]) (printed w))))
    | _ => Raise
    end.

Definition tf_print (v : R) : M unit :=
  fun w => Ret (tt, mkWorld (rng w) (saved w) (printed w ++ [v])).

(** A Python [for a in l: s = body(a, s)]. *)
Fixpoint for_each {A S : Type} (l : list A) (body : A -> S -> M S) (s : S)
  : M S :=
  match l with
  | [] => ret s
  | a :: l' => s' <- body a s ;; for_each l' body s'
  end.

(** [sample_one_step]. *)
Definition sample_one_step (model : Model) (x : Tensor)
    (idx_sigmas : list Z) (alpha_i : R) : M Tensor :=
  z_t <- draw_normal (shape x) ;;
  let score := model x idx_sigmas in
  let noise := smul (sqrt (alpha_i * 2)) z_t in
  t <- lift (badd x (smul alpha_i score)) ;;
  lift (badd t noise).

(** Body of [for i, sigma_i in enumerate(sigmas)] in [sample_many]
    (generate.py:88-91). *)
Definition sample_many_level (model : Model) (sigmas : list R) (eps : R)
    (T : nat) (level : nat * R) (batch : Tensor) : M Tensor :=
  let (i, sigma_i) := level in
  let alpha_i := eps * (sigma_i / last sigmas 0) ^ 2 in
  n <- lift (dim0 batch) ;;
  let idx_sigmas := repeat (Z.of_nat i) n in
  for_each (range T)
    (fun _ batch => sample_one_step model batch idx_sigmas alpha_i) batch.

(** The loop over noise levels applied to one sub-batch
    (generate.py:87-91). *)
Definition sample_many_batch (model : Model) (sigmas : list R) (eps : R)
    (T : nat) (batch : Tensor) : M Tensor :=
  for_each (enumerate sigmas) (sample_many_level model sigmas eps T) batch.

(** Body of [for i_batch, batch in enumerate(...)] in [sample_many]
    (generate.py:87-99); the loop state is
    [(x_processed, n_processed_images)] and [i_batch] is not used. *)
Definition sample_many_iteration (model : Model) (sigmas : list R)
    (batch_size : nat) (eps : R) (T : nat) (batch : Tensor)
    (st : option Tensor * nat) : M (option Tensor * nat) :=
  let (x_processed, n_processed_images) := st in
  batch <- sample_many_batch model sigmas eps T batch ;;
  x_processed <-
    match x_processed with
    | Some xp => c <- lift (concat0 xp batch) ;; ret (Some c)
    | None => ret (Some batch)
    end ;;
  ret (x_processed, (n_processed_images + batch_size)%nat).

(** [sample_many]; [dataset_image_size] stands for
    [utils.get_dataset_image_size(configs.config_values.dataset)]. *)
Definition sample_many (dataset_image_size : list nat) (model : Model)
    (sigmas : list R) (batch_size : nat) (eps : R) (T n_images : nat)
  : M (option Tensor) :=
  let image_size := n_images :: dataset_image_size in
  let batch_size := Nat.min batch_size n_images in
  x <- draw_uniform image_size ;;
  x <- lift (dataset_batch batch_size x) ;;
  st <- for_each x (sample_many_iteration model sigmas batch_size eps T)
          (None, 0%nat) ;;
  ret (fst st).

(** Body of [for t in range(T)] in [sample_and_save]
    (generate.py:169-172). *)
Definition sample_and_save_step (model : Model) (idx_sigmas : list Z)
    (alpha_i : R) (i t : nat) (x : Tensor) : M Tensor :=
  x <- sample_one_step model x idx_sigmas alpha_i ;;
  if ((t + 1) mod 10 =? 0)%nat
  then _ <- save_as_grid x (i + 1) (t + 1) ;; ret x
  else ret x.

(** Body of [for i, sigma_i in enumerate(sigmas)] in [sample_and_save]
    (generate.py:166-172). *)
Definition sample_and_save_level (model : Model) (sigmas : list R) (eps : R)
    (T n_images : nat) (level : nat * R) (x : Tensor) : M Tensor :=
  let (i, sigma_i) := level in
  let alpha_i := eps * (sigma_i / last sigmas 0) ^ 2 in
  let idx_sigmas := repeat (Z.of_nat i) n_images in
  for_each (range T) (sample_and_save_step model idx_sigmas alpha_i i) x.

(** [sample_and_save]. *)
Definition sample_and_save (dataset_image_size : list nat) (model : Model)
    (sigmas : list R) (eps : R) (T n_images : nat) : M Tensor :=
  let image_size := n_images :: dataset_image_size in
  x <- draw_uniform image_size ;;
  for_each (enumerate sigmas)
    (sample_and_save_level model sigmas eps T n_images) x.

(** [ssm_loss]. *)
Definition ssm_loss (scores data_grads : Tensor) : M R :=
  v <- draw_normal (shape scores) ;;
  a <- lift (bmul (transpose v) data_grads) ;;
  a <- lift (bmul a v) ;;
  b <- lift (bmul (transpose v) scores) ;;
  loss <- lift (badd a (smul 0.5 (tmap Rsqr b))) ;;
  let loss := reduce_mean loss in
  _ <- tf_print loss ;;
  ret loss.

End Sampler.

Arguments World G : clear implicits.
Arguments M G A : clear implicits.

(** [sigma_levels] of the main script (generate.py:191-193). *)

(** [tf.linspace(start, stop, num)]: the points
    [start + i * (stop - start) / (num - 1)]; a single point is [start].
    TensorFlow rejects [num = 0]; the list is empty there. *)
Definition linspace (start stop : R) (num : nat) : list R :=
  match num with
  | O => []
  | S O => [start]
  | S n => let step := (stop - start) / INR n in
           map (fun i => start + step * INR i) (seq 0 num)
  end.

Definition sigma_levels (sigma_high sigma_low : R) (num_L : nat) : list R :=
  map exp (linspace (ln sigma_high) (ln sigma_low) num_L).

(** ** Contracts of the external collaborators *)

(** What [tf.random.normal] and [tf.random.uniform] guarantee about the
    tensor they return. *)
Class RandomSourceLaws (G : Type) {RS : RandomSource G} : Prop := {
  normal_shape : forall s g, shape (fst (random_normal s g)) = s;
  normal_wf : forall s g, wf (fst (random_normal s g));
  uniform_shape : forall s g, shape (fst (random_uniform s g)) = s;
  uniform_wf : forall s g, wf (fst (random_uniform s g))
}.

(** The score model returns a tensor shaped like the batch it is given, when
    it is given one noise-level index per row. *)
Definition shape_preserving (model : Model) : Prop :=
  forall x idx, wf x -> dim0 x = Ret (length idx) ->
    shape (model x idx) = shape x.

(** ** Reading a rank-4 tensor by multi-index *)

Definition at4 (t : Tensor) (H W C b h w c : nat) : R :=
  tget t (((b * H + h) * W + w) * C + c).

(** ** The denoising loss, as the specification words it

    Per example, the norm over the spatial dimensions of
    [sigma * score + (x_perturbed - x) / sigma], then the norm of that over
    the channel dimension, squared, averaged over the batch, multiplied by
    0.5 and divided by [num_L]. *)

Section LossSpec.

Variables (num_L B H W C : nat) (score x_perturbed x sigmas : Tensor).

Definition residual (b h w c : nat) : R :=
  tget sigmas b * at4 score H W C b h w c
  + (at4 x_perturbed H W C b h w c - at4 x H W C b h w c) / tget sigmas b.

Definition spatial_norm (b c : nat) : R :=
  sqrt (sumn H (fun h => sumn W (fun w => Rsqr (residual b h w c)))).

Definition channel_norm (b : nat) : R :=
  sqrt (sumn C (fun c => Rsqr (spatial_norm b c))).

Definition loss_spec : R :=
  0.5 * (sumn B (fun b => Rsqr (channel_norm b)) / INR B) / INR num_L.

End LossSpec.

(** ** The value of one Langevin step *)

(** The tensor a step produces from the state, the score and the draw. *)
Definition step_value (x score z : Tensor) (alpha : R) : Tensor :=
  mkTensor (shape x)
    (tabulate (numel (shape x))
       (fun k => tget x k + alpha * tget score k
                 + sqrt (alpha * 2) * tget z k)).

(** ** The sampler's levels, one at a time *)

Section Levels.

Context {G : Type} {RS : RandomSource G}.

(** [T] Langevin steps at one noise level. *)
Definition langevin_steps (model : Model) (idx_sigmas : list Z) (alpha : R)
    (T : nat) (x : Tensor) : M G Tensor :=
  for_each (range T) (fun _ x => sample_one_step model x idx_sigmas alpha) x.

(** State of a sub-batch of [sample_many] once the first [k] noise levels of
    the schedule are done. *)
Definition after_levels (model : Model) (sigmas : list R) (eps : R)
    (T k : nat) (batch : Tensor) : M G Tensor :=
  for_each (firstn k (enumerate sigmas))
    (sample_many_level model sigmas eps T) batch.

(** The same for the loop of [sample_and_save]. *)
Definition after_levels_saving (model : Model) (sigmas : list R) (eps : R)
    (T n_images k : nat) (x : Tensor) : M G Tensor :=
  for_each (firstn k (enumerate sigmas))
    (sample_and_save_level model sigmas eps T n_images) x.

End Levels.

(** ** Runs that return

    [returns c w Q]: started in world [w], the computation [c] raises
    nothing and returns a value and a world that satisfy [Q]. *)

Definition returns {G A : Type} (c : M G A) (w : World G)
    (Q : A -> World G -> Prop) : Prop :=
  exists a w', c w = Ret (a, w') /\ Q a w'.

(** The dot product of two tensors read as flat vectors. *)
Definition dot (a b : Tensor) : R :=
  fold_right Rplus 0
    (map (fun p => fst p * snd p) (combine (data a) (data b))).

(** A batch as [tf.data] hands it over: some rows of the image shape [s]. *)
Definition is_batch (s : list nat) (t : Tensor) : Prop :=
  tl (shape t) = s /\ shape t <> [] /\ wf t.

(** The number of rows of a tensor of rank at least 1. *)
Definition rows (t : Tensor) : nat := hd 0%nat (shape t).

(** Every scalar of a tensor lies in [[lo, hi]]. *)
Definition values_within (lo hi : R) (t : Tensor) : Prop :=
  Forall (fun v => lo <= v <= hi) (data t).

(** A list of reals that goes strictly down. *)
Definition strictly_decreasing (l : list R) : Prop :=
  forall i j, (i < j < length l)%nat -> nth j l 0 < nth i l 0.

(** ** A concrete random source and score model

    The generator state counts the draws; every normal draw is the all-ones
    tensor and every uniform draw the all-halves tensor. *)

Module Demo.

Definition full (s : list nat) (v : R) : Tensor :=
  mkTensor s (repeat v (numel s)).

#[global] Instance source : RandomSource nat := {
  random_normal s g := (full s 1, S g);
  random_uniform s g := (full s (1 / 2), S g)
}.

(** A model whose score is 1 everywhere. *)
Definition unit_score : Model := fun x _ => full (shape x) 1.

Definition world0 : World nat := mkWorld 0%nat [] [].

End Demo.

(** ** More of losses/losses.py *)

(** [tf.reduce_sum(t, axis=axes, keepdims=True)]: the summed axes stay, with
    extent 1. *)
Definition reduce_sum_keepdims (axes : list nat) (t : Tensor) : res Tensor :=
  rbind (reduce_sum axes t) (fun r =>
    Ret (mkTensor
           (map (fun p => if existsb (Nat.eqb (fst p)) axes
                          then 1%nat else snd p)
              (enumerate (shape t)))
           (data r))).

(** [loss_per_batch_alternative]. *)
Definition loss_per_batch_alternative
    (score x_perturbed x sigmas : Tensor) : res R :=
  rbind (bsub x_perturbed x) (fun d =>
  rbind (bdiv d (tmap Rsqr sigmas)) (fun target =>
  rbind (badd score target) (fun st =>
  rbind (reduce_sum_keepdims [1; 2; 3]%nat (tmap Rsqr st)) (fun rs =>
  rbind (bmul (smul 0.5 rs) (tmap Rsqr sigmas)) (fun loss =>
  Ret (reduce_mean loss)))))).

(** ** More of generate.py *)

(** [alpha_i] of generate.py:88, 136 and 166. *)
Definition step_size (eps : R) (sigmas : list R) (i : nat) : R :=
  eps * (nth i sigmas 0 / last sigmas 0) ^ 2.

(** *** The geometry of [save_as_grid] (generate.py:38-51)

    [np.floor(np.sqrt(n_images)).astype(int)] is the integer square root.
    The canvas is [Image.new(mode, (grid_rows, grid_cols))], a PIL size
    (width, height); image [i] is pasted with its top left corner at
    [(row_start, col_start)], a PIL position (x, y), and covers [width]
    pixels to the right and [height] pixels down. *)

Definition grid_canvas (n_images height width spacing : nat) : nat * nat :=
  let rows := Nat.sqrt n_images in
  let cols := (n_images / rows)%nat in
  let grid_cols := (rows * height + (rows + 1) * spacing)%nat in
  let grid_rows := (cols * width + (cols + 1) * spacing)%nat in
  (grid_rows, grid_cols).

Definition grid_paste (n_images height width spacing i : nat) : nat * nat :=
  let rows := Nat.sqrt n_images in
  let row := (i / rows)%nat in
  let col := (i mod rows)%nat in
  let row_start := (row * height + (1 + row) * spacing)%nat in
  let col_start := (col * width + (1 + col) * spacing)%nat in
  (row_start, col_start).

(** *** [sample_many_and_save] *)

(** [tf.tile(image, [1, 1, k])] on an image of rank 3: each pixel's channels
    repeated [k] times. *)
Definition tile_channels (k : nat) (image : Tensor) : res Tensor :=
  match shape image with
  | [h; w; c] =>
      Ret (mkTensor [h; w; (k * c)%nat]
             (tabulate (h * (w * (k * c)))
                (fun j => tget image
                            (j / (k * c) * c + (j mod (k * c)) mod c)%nat)))
  | _ => Raise
  end.

Section BulkSaving.

Context {G : Type} {RS : RandomSource G}.

Local Notation "x <- c1 ;; c2" := (bind c1 (fun x => c2))
  (at level 61, c1 at next level, right associativity).

(** Body of [for image in batch] (generate.py:143-147).  The loop state is
    [idx_image] and the files written so far, each with the number in its
    name [{idx_image}.png] and the array handed to PIL. *)
Definition sample_many_and_save_image (image : Tensor)
    (st : nat * list (nat * Tensor)) : M G (nat * list (nat * Tensor)) :=
  let (idx_image, files) := st in
  tiled <- lift (tile_channels 3 image) ;;
  im <- lift (array_to_img tiled) ;;
  ret ((idx_image + 1)%nat, files ++ [(idx_image, im)]).

(** Body of [for i_batch, batch in enumerate(...)] in
    [sample_many_and_save] (generate.py:135-147), with a save directory. *)
Definition sample_many_and_save_iteration (model : Model) (sigmas : list R)
    (eps : R) (T : nat) (batch : Tensor) (st : nat * list (nat * Tensor))
  : M G (nat * list (nat * Tensor)) :=
  batch <- sample_many_batch model sigmas eps T batch ;;
  let batch := _preprocess_image_to_save batch in
  images <- lift (unstack batch) ;;
  for_each images sample_many_and_save_image st.

(** [sample_many_and_save], called with a save directory.  Python returns
    nothing; the embedding returns the files written, in order. *)
Definition sample_many_and_save (dataset_image_size : list nat)
    (model : Model) (sigmas : list R) (batch_size : nat) (eps : R)
    (T n_images : nat) : M G (list (nat * Tensor)) :=
  let image_size := n_images :: dataset_image_size in
  let batch_size := Nat.min batch_size n_images in
  x <- draw_uniform image_size ;;
  x <- lift (dataset_batch batch_size x) ;;
  st <- for_each x (sample_many_and_save_iteration model sigmas eps T)
          (0%nat, []) ;;
  ret (snd st).

End BulkSaving.

(** The snapshots [sample_and_save] writes at level [i] (counted from 0)
    when it runs [T] steps: one after every tenth step. *)
Definition snapshot_names (i T : nat) : list (nat * nat) :=
  map (fun k => ((i + 1)%nat, (10 * (k + 1))%nat)) (seq 0 (T / 10)).

(** What a stretch of a run adds to the world: the snapshots [names], each
    of shape [image_size], and nothing printed; the state [y] it ends in has
    that shape too. *)
Definition adds_snapshots {G : Type} (image_size : list nat) (w : World G)
    (names : list (nat * nat)) (y : Tensor) (w' : World G) : Prop :=
  (shape y = image_size /\ wf y)
  /\ printed w' = printed w
  /\ exists added,
       saved w' = saved w ++ added
       /\ map fst added = names
       /\ Forall (fun e => shape (snd e) = image_size) added.



(** ** When a snapshot can be written

    [save_as_grid] succeeds on images of rank 3 with at least one pixel and
    1, 3 or 4 channels. *)

Definition supported_channels (C : nat) : Prop :=
  C = 1%nat \/ C = 3%nat \/ C = 4%nat.

(** The runs of [sample_and_save] in which every snapshot that is due can be
    written: fewer than 10 steps per level, so that none is due, or images
    that [save_as_grid] takes. *)
Definition snapshots_possible (T : nat) (dataset_image_size : list nat)
  : Prop :=
  (T < 10)%nat
  \/ exists H W C, dataset_image_size = [H; W; C]
                   /\ (1 <= H)%nat /\ (1 <= W)%nat /\ supported_channels C.

(** The image shapes on which a snapshot cannot be written: the unpacking
    of [images.shape] fails unless the batch has rank 4, and [array_to_img]
    refuses the first image unless it has 1, 3 or 4 channels. *)
Definition snapshot_raises (n_images : nat) (dataset_image_size : list nat)
  : Prop :=
  length dataset_image_size <> 3%nat
  \/ ((1 <= n_images)%nat
      /\ exists H W C, dataset_image_size = [H; W; C]
                       /\ ~ supported_channels C).

(** ** The batches of [sample_many], one after the other *)

Section Batches.

Context {G : Type} {RS : RandomSource G}.

(** The loop over the levels run on each batch in turn, the outputs kept in
    order. *)
Fixpoint process_batches (model : Model) (sigmas : list R) (eps : R)
    (T : nat) (batches : list Tensor) : M G (list Tensor) :=
  match batches with
  | [] => ret []
  | batch :: rest =>
      bind (sample_many_batch model sigmas eps T batch) (fun out =>
      bind (process_batches model sigmas eps T rest) (fun outs =>
      ret (out :: outs)))
  end.

End Batches.

(** Tensors of one row shape put one after the other along axis 0. *)
Definition concat_rows (row_shape : list nat) (ts : list Tensor) : Tensor :=
  mkTensor (list_sum (map rows ts) :: row_shape) (concat (map data ts)).

(** * Properties *)

(** ** Lists, sums and offsets *)

Lemma length_tabulate (n : nat) (f : nat -> R) : length (tabulate n f) = n.
Proof. unfold tabulate. now rewrite length_map, length_seq. Qed.

Lemma nth_tabulate (n : nat) (f : nat -> R) (k : nat) :
  (k < n)%nat -> nth k (tabulate n f) 0 = f k.
Proof.
  intros Hk. unfold tabulate.
  rewrite (nth_indep _ 0 (f 0%nat)) by now rewrite length_map, length_seq.
  rewrite map_nth, seq_nth; auto.
Qed.

Lemma tabulate_ext (n : nat) (f g : nat -> R) :
  (forall k, (k < n)%nat -> f k = g k) -> tabulate n f = tabulate n g.
Proof.
  intros E. unfold tabulate. apply map_ext_in.
  intros k Hk. apply in_seq in Hk. apply E. lia.
Qed.

Lemma numel_app (a b : list nat) : numel (a ++ b) = (numel a * numel b)%nat.
Proof.
  induction a as [|d a IH]; simpl.
  - lia.
  - rewrite IH. lia.
Qed.

Lemma numel_rev (s : list nat) : numel (rev s) = numel s.
Proof.
  induction s as [|d s IH]; simpl; auto.
  rewrite numel_app, IH. simpl. lia.
Qed.

Lemma sumn_ext (n : nat) (f g : nat -> R) :
  (forall j, (j < n)%nat -> f j = g j) -> sumn n f = sumn n g.
Proof.
  induction n as [|n IH]; intros E; simpl; auto.
  rewrite IH, E; auto.
Qed.

Lemma sumn_nonneg (n : nat) (f : nat -> R) :
  (forall j, (j < n)%nat -> 0 <= f j) -> 0 <= sumn n f.
Proof.
  induction n as [|n IH]; intros P; simpl.
  - lra.
  - assert (0 <= sumn n f) by (apply IH; auto).
    assert (0 <= f n) by (apply P; lia). lra.
Qed.

Lemma sumn_zero_iff (n : nat) (f : nat -> R) :
  (forall j, (j < n)%nat -> 0 <= f j) ->
  sumn n f = 0 <-> (forall j, (j < n)%nat -> f j = 0).
Proof.
  induction n as [|n IH]; intros P; simpl.
  - split; [intros _ j Hj; lia | reflexivity].
  - assert (Hs : 0 <= sumn n f) by (apply sumn_nonneg; auto).
    assert (Hn : 0 <= f n) by (apply P; lia).
    assert (IH' := IH (fun j Hj => P j (Nat.lt_lt_succ_r _ _ Hj))).
    split.
    + intros E j Hj.
      assert (Ez : sumn n f = 0) by lra.
      destruct (Nat.eq_dec j n) as [->|Hne]; [lra|].
      apply IH'; [exact Ez | lia].
    + intros Z. rewrite (Z n) by lia.
      assert (sumn n f = 0) by (apply IH'; intros; apply Z; lia). lra.
Qed.

Lemma fold_right_Rplus_app (l1 l2 : list R) :
  fold_right Rplus 0 (l1 ++ l2)
  = fold_right Rplus 0 l1 + fold_right Rplus 0 l2.
Proof. induction l1 as [|a l1 IH]; simpl; [lra | rewrite IH; lra]. Qed.

Lemma fold_right_tabulate (n : nat) (f : nat -> R) :
  fold_right Rplus 0 (tabulate n f) = sumn n f.
Proof.
  unfold tabulate. induction n as [|n IH]; [reflexivity|].
  rewrite seq_S, map_app, fold_right_Rplus_app, IH. simpl. lra.
Qed.

Lemma tget_tmap (f : R -> R) (t : Tensor) (k : nat) :
  f 0 = 0 -> tget (tmap f t) k = f (tget t k).
Proof.
  intros F. unfold tget, tmap. simpl.
  rewrite <- F at 1. apply map_nth.
Qed.

Lemma tget_smul (c : R) (t : Tensor) (k : nat) :
  tget (smul c t) k = c * tget t k.
Proof. unfold smul. apply tget_tmap. lra. Qed.

(** ** Broadcasting two tensors of one shape is the pointwise operation *)

Lemma bshape_rev_same (s : list nat) : bshape_rev s s = Ret s.
Proof.
  induction s as [|d s IH]; simpl; auto.
  now rewrite IH, Nat.eqb_refl.
Qed.

Lemma broadcast_shape_same (s : list nat) : broadcast_shape s s = Ret s.
Proof.
  unfold broadcast_shape. now rewrite bshape_rev_same, rev_involutive.
Qed.

Lemma ravel_unravel (sr : list nat) (k : nat) :
  (k < numel sr)%nat ->
  ravel_rev sr (clip_rev sr (unravel_rev sr k)) = k.
Proof.
  revert k. induction sr as [|d sr IH]; intros k Hk; simpl in *.
  - lia.
  - assert (Hd : d <> 0%nat) by (intros ->; simpl in Hk; lia).
    assert (Hq : (k / d < numel sr)%nat)
      by (apply Nat.Div0.div_lt_upper_bound; lia).
    rewrite (IH _ Hq).
    destruct (Nat.eqb_spec d 1) as [->|Hne].
    + rewrite Nat.div_1_r. lia.
    + pose proof (Nat.div_mod_eq k d). lia.
Qed.

Lemma source_index_same (s : list nat) (k : nat) :
  (k < numel s)%nat -> source_index s s k = k.
Proof.
  intros Hk. unfold source_index. apply ravel_unravel.
  now rewrite numel_rev.
Qed.

Lemma broadcast2_same_shape (f : R -> R -> R) (a b : Tensor) :
  shape b = shape a ->
  broadcast2 f a b
  = Ret (mkTensor (shape a)
           (tabulate (numel (shape a)) (fun k => f (tget a k) (tget b k)))).
Proof.
  intros E. unfold broadcast2. rewrite E, broadcast_shape_same.
  f_equal. f_equal. apply tabulate_ext. intros k Hk.
  now rewrite source_index_same.
Qed.

Lemma broadcast2_wf (f : R -> R -> R) (a b r : Tensor) :
  broadcast2 f a b = Ret r -> wf r.
Proof.
  unfold broadcast2. destruct (broadcast_shape _ _); [|discriminate].
  intros [= <-]. unfold wf. simpl. apply length_tabulate.
Qed.

(** ** The single Langevin step *)

Section StepFacts.

Context {G : Type} {RS : RandomSource G}.

Lemma sample_one_step_run (model : Model) (x : Tensor) (idx : list Z)
    (alpha : R) (w : World G) :
  shape (model x idx) = shape x ->
  shape (fst (random_normal (shape x) (rng w))) = shape x ->
  sample_one_step model x idx alpha w
  = Ret (step_value x (model x idx)
           (fst (random_normal (shape x) (rng w))) alpha,
         mkWorld (snd (random_normal (shape x) (rng w)))
           (saved w) (printed w)).
Proof.
  intros Hs Hz. unfold sample_one_step, bind, draw_normal, lift.
  destruct (random_normal (shape x) (rng w)) as [z g] eqn:Ez.
  simpl in Hz |- *. unfold badd.
  rewrite (broadcast2_same_shape Rplus x (smul alpha (model x idx)))
    by exact Hs.
  rewrite broadcast2_same_shape by (simpl; exact Hz).
  simpl. unfold step_value. f_equal. f_equal. f_equal.
  apply tabulate_ext. intros k Hk.
  unfold tget at 1. simpl. rewrite nth_tabulate by exact Hk.
  now rewrite !tget_smul.
Qed.

Lemma step_value_wf (x score z : Tensor) (alpha : R) :
  wf (step_value x score z alpha).
Proof. unfold wf, step_value. simpl. apply length_tabulate. Qed.

Context {RL : RandomSourceLaws G}.

(** A step keeps the shape of the state whenever the score has it. *)
Lemma sample_one_step_shape (model : Model) (x : Tensor) (idx : list Z)
    (alpha : R) (w : World G) :
  shape (model x idx) = shape x ->
  exists x' w',
    sample_one_step model x idx alpha w = Ret (x', w')
    /\ shape x' = shape x /\ wf x' /\ saved w' = saved w.
Proof.
  intros Hs. eexists. eexists. split.
  - apply sample_one_step_run; [exact Hs | apply normal_shape].
  - split; [reflexivity | split; [apply step_value_wf | reflexivity]].
Qed.

(** C1. One call of [sample_one_step] on a state [x], with the score
    [score = model([x, idx_sigmas])] and the Gaussian draw [z] of the shape
    of [x], returns [x + alpha_i * score + sqrt(2 * alpha_i) * z], entry by
    entry, and consumes exactly that one draw. *)
Theorem sample_one_step_update (model : Model) (x : Tensor)
    (idx_sigmas : list Z) (alpha_i : R) (w : World G) :
  let score := model x idx_sigmas in
  let z := fst (random_normal (shape x) (rng w)) in
  shape score = shape x ->
  exists x_new w',
    sample_one_step model x idx_sigmas alpha_i w = Ret (x_new, w')
    /\ rng w' = snd (random_normal (shape x) (rng w))
    /\ shape z = shape x
    /\ shape x_new = shape x
    /\ forall k, (k < numel (shape x))%nat ->
         tget x_new k
         = tget x k + alpha_i * tget score k + sqrt (2 * alpha_i) * tget z k.
Proof.
  intros score z Hs.
  assert (Hz : shape z = shape x) by apply normal_shape.
  eexists. eexists. split; [apply sample_one_step_run; assumption|].
  split; [reflexivity|]. split; [exact Hz|]. split; [reflexivity|].
  intros k Hk. unfold tget at 1. simpl. rewrite nth_tabulate by exact Hk.
  now rewrite (Rmult_comm alpha_i 2).
Qed.

(** C8. Two runs of the step on the same state, noise-level indices and
    step size, whose models give the same score there and whose generators
    give the same draw, end in the same [x_new]: the new state is a function
    of [(x, score, alpha_i, z)] alone. *)
Theorem sample_one_step_deterministic (model1 model2 : Model) (x : Tensor)
    (idx_sigmas : list Z) (alpha_i : R) (w1 w2 : World G) :
  model1 x idx_sigmas = model2 x idx_sigmas ->
  fst (random_normal (shape x) (rng w1))
  = fst (random_normal (shape x) (rng w2)) ->
  match sample_one_step model1 x idx_sigmas alpha_i w1,
        sample_one_step model2 x idx_sigmas alpha_i w2 with
  | Ret (x1, _), Ret (x2, _) => x1 = x2
  | Raise, Raise => True
  | _, _ => False
  end.
Proof.
  intros Hm Hz. unfold sample_one_step, bind, draw_normal, lift.
  destruct (random_normal (shape x) (rng w1)) as [z1 g1].
  destruct (random_normal (shape x) (rng w2)) as [z2 g2].
  simpl in Hz. subst z2. rewrite <- Hm.
  destruct (badd x (smul alpha_i (model1 x idx_sigmas))) as [t|]; [|exact I].
  destruct (badd t (smul (sqrt (alpha_i * 2)) z1)); [reflexivity | exact I].
Qed.

End StepFacts.

(** ** Loops *)

Section LoopFacts.

Context {G : Type} {RS : RandomSource G}.

Lemma bind_ret_r {A : Type} (c : M G A) (w : World G) :
  bind c ret w = c w.
Proof. unfold bind, ret. destruct (c w) as [[a w']|]; reflexivity. Qed.

Lemma bind_ext {A B : Type} (c : M G A) (k1 k2 : A -> M G B) (w : World G) :
  (forall a w', k1 a w' = k2 a w') -> bind c k1 w = bind c k2 w.
Proof.
  intros E. unfold bind. destruct (c w) as [[a w']|]; [apply E | reflexivity].
Qed.

Lemma bind_assoc {A B C : Type} (c : M G A) (k1 : A -> M G B)
    (k2 : B -> M G C) (w : World G) :
  bind (bind c k1) k2 w = bind c (fun a => bind (k1 a) k2) w.
Proof. unfold bind. destruct (c w) as [[a w']|]; reflexivity. Qed.

Lemma for_each_app {A S : Type} (l1 l2 : list A) (body : A -> S -> M G S)
    (s : S) (w : World G) :
  for_each (l1 ++ l2) body s w
  = bind (for_each l1 body s) (for_each l2 body) w.
Proof.
  revert s w. induction l1 as [|a l1 IH]; intros s w; simpl.
  - reflexivity.
  - rewrite bind_assoc. apply bind_ext. intros s' w'. apply IH.
Qed.

Lemma for_each_ext {A S : Type} (l : list A) (b1 b2 : A -> S -> M G S)
    (s : S) (w : World G) :
  (forall a s' w', In a l -> b1 a s' w' = b2 a s' w') ->
  for_each l b1 s w = for_each l b2 s w.
Proof.
  revert s w. induction l as [|a l IH]; intros s w E; simpl; auto.
  unfold bind. rewrite E by now left.
  destruct (b2 a s w) as [[s' w']|]; auto.
  apply IH. intros. apply E. now right.
Qed.

Lemma for_each_skip {A S : Type} (l : list A) (body : A -> S -> M G S)
    (s : S) (w : World G) :
  (forall a w', In a l -> body a s w' = Ret (s, w')) ->
  for_each l body s w = Ret (s, w).
Proof.
  induction l as [|a l IH]; intros E; simpl; [reflexivity|].
  unfold bind. rewrite E by now left.
  apply IH. intros. apply E. now right.
Qed.

Lemma returns_ret {A : Type} (a : A) (w : World G)
    (Q : A -> World G -> Prop) :
  Q a w -> returns (ret a) w Q.
Proof. intros q. exists a, w. split; [reflexivity | exact q]. Qed.

Lemma returns_lift {A : Type} (r : res A) (a : A) (w : World G)
    (Q : A -> World G -> Prop) :
  r = Ret a -> Q a w -> returns (lift r) w Q.
Proof.
  intros -> q. exists a, w. split; [reflexivity | exact q].
Qed.

Lemma returns_bind {A B : Type} (c : M G A) (k : A -> M G B) (w : World G)
    (P : A -> World G -> Prop) (Q : B -> World G -> Prop) :
  returns c w P ->
  (forall a w', P a w' -> returns (k a) w' Q) ->
  returns (bind c k) w Q.
Proof.
  intros (a & w' & E & p) K. destruct (K a w' p) as (b & w'' & E' & q).
  exists b, w''. split; [|exact q]. unfold bind. now rewrite E.
Qed.

Lemma returns_weaken {A : Type} (c : M G A) (w : World G)
    (P Q : A -> World G -> Prop) :
  returns c w P -> (forall a w', P a w' -> Q a w') -> returns c w Q.
Proof.
  intros (a & w' & E & p) I. exists a, w'. split; [exact E | now apply I].
Qed.

Lemma returns_eq {A : Type} (c1 c2 : M G A) (w : World G)
    (Q : A -> World G -> Prop) :
  c1 w = c2 w -> returns c2 w Q -> returns c1 w Q.
Proof. intros E (a & w' & E' & q). exists a, w'. now rewrite E. Qed.

(** The loop rule: an invariant of the body is an invariant of the loop,
    and the loop returns. *)
Lemma returns_for_each {A S : Type} (l : list A) (body : A -> S -> M G S)
    (I : S -> World G -> Prop) (s : S) (w : World G) :
  (forall a s' w', In a l -> I s' w' -> returns (body a s') w' I) ->
  I s w -> returns (for_each l body s) w I.
Proof.
  revert s w. induction l as [|a l IH]; intros s w B i; simpl.
  - now apply returns_ret.
  - eapply returns_bind.
    + apply B; [now left | exact i].
    + intros s' w' i'. apply IH; [|exact i'].
      intros. apply B; [now right | assumption].
Qed.

Lemma enumerate_length {A : Type} (l : list A) :
  length (enumerate l) = length l.
Proof.
  unfold enumerate. rewrite length_combine, length_seq. apply Nat.min_id.
Qed.

Lemma enumerate_nth {A : Type} (l : list A) (i : nat) (d : A) :
  (i < length l)%nat -> nth i (enumerate l) (0%nat, d) = (i, nth i l d).
Proof.
  intros Hi. unfold enumerate.
  rewrite combine_nth by apply length_seq.
  now rewrite seq_nth.
Qed.

Lemma firstn_succ_nth {A : Type} (l : list A) (i : nat) (d : A) :
  (i < length l)%nat -> firstn (S i) l = firstn i l ++ [nth i l d].
Proof.
  revert i. induction l as [|a l IH]; intros i Hi; simpl in Hi.
  - lia.
  - destruct i as [|i]; simpl; [reflexivity|].
    f_equal. apply IH. lia.
Qed.

Lemma last_nth (l : list R) : last l 0 = nth (length l - 1) l 0.
Proof.
  induction l as [|a l IH]; [reflexivity|].
  destruct l as [|b l]; [reflexivity|].
  change (last (a :: b :: l) 0) with (last (b :: l) 0). rewrite IH.
  simpl. now rewrite Nat.sub_0_r.
Qed.

End LoopFacts.

(** ** Annealing: the loop over noise levels *)

Section AnnealingFacts.

Context {G : Type} {RS : RandomSource G}.

Lemma after_levels_all (model : Model) (sigmas : list R) (eps : R) (T : nat)
    (batch : Tensor) (w : World G) :
  sample_many_batch model sigmas eps T batch w
  = after_levels model sigmas eps T (length sigmas) batch w.
Proof.
  unfold sample_many_batch, after_levels.
  rewrite <- (enumerate_length sigmas). now rewrite firstn_all.
Qed.

Lemma after_levels_succ (model : Model) (sigmas : list R) (eps : R)
    (T i : nat) (batch : Tensor) (w : World G) :
  (i < length sigmas)%nat ->
  after_levels model sigmas eps T (S i) batch w
  = bind (after_levels model sigmas eps T i batch)
      (sample_many_level model sigmas eps T (i, nth i sigmas 0)) w.
Proof.
  intros Hi. unfold after_levels.
  rewrite (firstn_succ_nth (enumerate sigmas) i (0%nat, 0))
    by now rewrite enumerate_length.
  rewrite for_each_app, enumerate_nth by exact Hi.
  apply bind_ext. intros x w'. simpl. apply bind_ret_r.
Qed.

Lemma after_levels_saving_succ (model : Model) (sigmas : list R) (eps : R)
    (T n i : nat) (x : Tensor) (w : World G) :
  (i < length sigmas)%nat ->
  after_levels_saving model sigmas eps T n (S i) x w
  = bind (after_levels_saving model sigmas eps T n i x)
      (sample_and_save_level model sigmas eps T n (i, nth i sigmas 0)) w.
Proof.
  intros Hi. unfold after_levels_saving.
  rewrite (firstn_succ_nth (enumerate sigmas) i (0%nat, 0))
    by now rewrite enumerate_length.
  rewrite for_each_app, enumerate_nth by exact Hi.
  apply bind_ext. intros y w'. simpl. apply bind_ret_r.
Qed.

Lemma sample_and_save_single (dataset_image_size : list nat)
    (model : Model) (sigma eps : R) (n_images : nat) (w : World G) :
  sigma <> 0 ->
  sample_and_save dataset_image_size model [sigma] eps 1 n_images w
  = bind (draw_uniform (n_images :: dataset_image_size))
      (fun x0 => sample_one_step model x0 (repeat 0%Z n_images) eps) w.
Proof.
  intros Hs.
  assert (Ha : eps * (sigma / sigma) ^ 2 = eps) by (field; exact Hs).
  unfold sample_and_save. apply bind_ext. intros x0 w0.
  unfold enumerate, sample_and_save_level, range.
  cbn [length seq combine for_each last].
  rewrite Ha, !bind_ret_r. unfold sample_and_save_step.
  change ((0 + 1) mod 10 =? 0)%nat with false.
  apply bind_ret_r.
Qed.

Lemma sample_many_batch_single (model : Model) (sigma eps : R)
    (batch : Tensor) (w : World G) :
  sigma <> 0 ->
  sample_many_batch model [sigma] eps 1 batch w
  = bind (lift (dim0 batch))
      (fun n => sample_one_step model batch (repeat 0%Z n) eps) w.
Proof.
  intros Hs.
  assert (Ha : eps * (sigma / sigma) ^ 2 = eps) by (field; exact Hs).
  unfold sample_many_batch, enumerate, sample_many_level.
  cbn [length seq combine for_each last].
  rewrite Ha, bind_ret_r. apply bind_ext. intros n w'.
  unfold range. cbn [seq for_each]. apply bind_ret_r.
Qed.

(** C9. With a schedule of one level and [T = 1], the annealed loop of
    [sample_and_save] is one call of [sample_one_step] on the initial
    uniform noise, with index 0 and step size [eps]; so is the loop that
    [sample_many] runs on a batch.  Nothing else is drawn or saved. *)
Theorem single_level_single_step (dataset_image_size : list nat)
    (model : Model) (sigma eps : R) (n_images : nat) :
  sigma <> 0 ->
  (forall w : World G,
     sample_and_save dataset_image_size model [sigma] eps 1 n_images w
     = bind (draw_uniform (n_images :: dataset_image_size))
         (fun x0 => sample_one_step model x0 (repeat 0%Z n_images) eps) w)
  /\ (forall (batch : Tensor) (w : World G),
        sample_many_batch model [sigma] eps 1 batch w
        = bind (lift (dim0 batch))
            (fun n => sample_one_step model batch (repeat 0%Z n) eps) w).
Proof.
  intros Hs. split.
  - intros w. now apply sample_and_save_single.
  - intros batch w. now apply sample_many_batch_single.
Qed.

Context {RL : RandomSourceLaws G}.

(** [T] steps at one level keep the shape of the state and write nothing,
    when the model keeps shapes. *)
Lemma langevin_steps_shape (model : Model) (idx : list Z) (alpha : R)
    (T : nat) (x : Tensor) (w : World G) :
  shape_preserving model -> wf x -> dim0 x = Ret (length idx) ->
  returns (langevin_steps model idx alpha T x) w
    (fun y _ => shape y = shape x /\ wf y).
Proof.
  intros Hm Hx Hd. unfold langevin_steps.
  apply (returns_for_each _ _ (fun y _ => shape y = shape x /\ wf y));
    [|now split].
  intros t y w' _ [Ey Wy].
  destruct (sample_one_step_shape model y idx alpha w')
    as (y' & w'' & E & Sy & Wy' & _).
  - apply Hm; [exact Wy|]. unfold dim0 in *. now rewrite Ey.
  - exists y', w''. split; [exact E|]. split; [congruence | exact Wy'].
Qed.

Lemma sample_many_level_shape (model : Model) (sigmas : list R) (eps : R)
    (T : nat) (level : nat * R) (x : Tensor) (w : World G) :
  shape_preserving model -> wf x -> shape x <> [] ->
  returns (sample_many_level model sigmas eps T level x) w
    (fun y _ => shape y = shape x /\ wf y).
Proof.
  intros Hm Hx Hn. destruct level as [i sigma_i].
  unfold sample_many_level.
  destruct (shape x) as [|n s] eqn:Es; [congruence|].
  eapply returns_bind.
  - apply (returns_lift _ n _ (fun m _ => m = n)); [|reflexivity].
    unfold dim0. now rewrite Es.
  - intros m w' ->. rewrite <- Es.
    apply (langevin_steps_shape model _ _ T x w' Hm Hx).
    unfold dim0. now rewrite Es, repeat_length.
Qed.

Lemma sample_many_batch_shape (model : Model) (sigmas : list R) (eps : R)
    (T : nat) (x : Tensor) (w : World G) :
  shape_preserving model -> wf x -> shape x <> [] ->
  returns (sample_many_batch model sigmas eps T x) w
    (fun y _ => shape y = shape x /\ wf y).
Proof.
  intros Hm Hx Hn. unfold sample_many_batch.
  apply (returns_for_each _ _ (fun y _ => shape y = shape x /\ wf y));
    [|now split].
  intros level y w' _ [Ey Wy].
  eapply returns_weaken.
  - apply sample_many_level_shape; [exact Hm | exact Wy | congruence].
  - intros z _ [Ez Wz]. split; [congruence | exact Wz].
Qed.

Lemma paste_images_run (images : list Tensor) (H W C : nat) :
  supported_channels C ->
  Forall (fun im => shape im = [H; W; C]) images ->
  paste_images images = Ret tt.
Proof.
  intros HC F. induction F as [|im images Si _ IH]; [reflexivity|].
  cbn [paste_images]. unfold array_to_img at 1. rewrite Si.
  replace ((C =? 1) || (C =? 3) || (C =? 4))%nat with true.
  - exact IH.
  - symmetry. destruct HC as [-> | [-> | ->]]; reflexivity.
Qed.

(** On images of rank 3 with a supported number of channels [save_as_grid]
    writes its file. *)
Lemma save_as_grid_run (x : Tensor) (n H W C i t : nat) (w : World G) :
  shape x = [n; H; W; C] -> supported_channels C ->
  save_as_grid x i t w
  = Ret (tt, mkWorld (rng w) (saved w ++ [(i, t, x)]) (printed w)).
Proof.
  intros Sx HC. unfold save_as_grid, unstack. rewrite Sx. cbn [rbind].
  rewrite (paste_images_run _ H W C HC); [reflexivity|].
  apply Forall_forall. intros im Him. apply in_map_iff in Him.
  now destruct Him as (j & <- & _).
Qed.

Lemma no_snapshot_due (T t : nat) :
  (T < 10)%nat -> (t < T)%nat -> ((t + 1) mod 10 =? 0)%nat = false.
Proof.
  intros HT Ht. apply Nat.eqb_neq. rewrite Nat.mod_small; lia.
Qed.

Lemma sample_and_save_step_shape (model : Model) (idx : list Z) (alpha : R)
    (i t T n : nat) (hwc : list nat) (x : Tensor) (w : World G) :
  shape_preserving model -> snapshots_possible T hwc -> (t < T)%nat ->
  shape x = n :: hwc -> wf x -> length idx = n ->
  returns (sample_and_save_step model idx alpha i t x) w
    (fun y _ => shape y = n :: hwc /\ wf y).
Proof.
  intros Hm Hs Ht Sx Hx Hl. unfold sample_and_save_step.
  assert (Hd : dim0 x = Ret (length idx))
    by (unfold dim0; now rewrite Sx, Hl).
  destruct (sample_one_step_shape model x idx alpha w (Hm x idx Hx Hd))
    as (y & w' & E & Sy & Wy & _).
  rewrite Sx in Sy.
  apply (returns_bind _ _ _ (fun a _ => a = y)).
  - exists y, w'. split; [exact E | reflexivity].
  - intros a w'' ->.
    destruct Hs as [HT | (H & W & C & -> & _ & _ & HC)].
    + rewrite (no_snapshot_due T t HT Ht). now apply returns_ret.
    + destruct ((t + 1) mod 10 =? 0)%nat; [|now apply returns_ret].
      apply (returns_bind _ _ _ (fun _ _ => True)).
      * eexists. eexists.
        split; [now apply (save_as_grid_run y n H W C) | exact I].
      * intros _ w3 _. now apply returns_ret.
Qed.

Lemma sample_and_save_level_shape (model : Model) (sigmas : list R)
    (eps : R) (T n : nat) (hwc : list nat) (level : nat * R) (x : Tensor)
    (w : World G) :
  shape_preserving model -> snapshots_possible T hwc ->
  shape x = n :: hwc -> wf x ->
  returns (sample_and_save_level model sigmas eps T n level x) w
    (fun y _ => shape y = n :: hwc /\ wf y).
Proof.
  intros Hm Hs Sx Hx. destruct level as [i sigma_i].
  unfold sample_and_save_level.
  apply (returns_for_each _ _ (fun y _ => shape y = n :: hwc /\ wf y));
    [|now split].
  intros t y w' Ht [Sy Wy]. apply in_seq in Ht.
  apply (sample_and_save_step_shape model _ _ i t T n hwc);
    try assumption; [lia | apply repeat_length].
Qed.

Lemma after_levels_saving_shape (model : Model) (sigmas : list R) (eps : R)
    (T n k : nat) (hwc : list nat) (x : Tensor) (w : World G) :
  shape_preserving model -> snapshots_possible T hwc ->
  shape x = n :: hwc -> wf x ->
  returns (after_levels_saving model sigmas eps T n k x) w
    (fun y _ => shape y = n :: hwc /\ wf y).
Proof.
  intros Hm Hs Sx Hx. unfold after_levels_saving.
  apply (returns_for_each _ _ (fun y _ => shape y = n :: hwc /\ wf y));
    [|now split].
  intros level y w' _ [Sy Wy].
  now apply sample_and_save_level_shape.
Qed.

Lemma draw_uniform_returns (s : list nat) (w : World G) :
  returns (draw_uniform s) w (fun x _ => shape x = s /\ wf x).
Proof.
  unfold returns, draw_uniform.
  pose proof (uniform_shape s (rng w)) as Hs.
  pose proof (uniform_wf s (rng w)) as Hw.
  destruct (random_uniform s (rng w)) as [u g]. simpl in *.
  eexists. eexists. split; [reflexivity | now split].
Qed.

End AnnealingFacts.

Section ChainingFacts.

Context {G : Type} {RS : RandomSource G} {RL : RandomSourceLaws G}.

(** C2. For a schedule of length [L], the sampler goes through the levels
    [i = 0 .. L-1] in order.  The state after the first [i + 1] levels is
    the state after the first [i] levels (the batch itself for [i = 0])
    followed by [T] calls of [sample_one_step] with
    [alpha_i = eps * (sigma_i / sigma_{L-1})^2] and with the index vector
    made of [i] repeated once per row of the current batch.  This holds for
    the loop [sample_many] runs on a batch and for the loop of
    [sample_and_save], where a snapshot follows every tenth step, the index
    vector has [n_images] entries and, when the model keeps shapes and the
    snapshots can be written, the state has [n_images] rows. *)
Theorem annealing_levels_chain (dataset_image_size : list nat)
    (model : Model) (sigmas : list R) (eps : R) (T n_images : nat) :
  shape_preserving model -> snapshots_possible T dataset_image_size ->
  let L := length sigmas in
  let alpha i := eps * (nth i sigmas 0 / nth (L - 1) sigmas 0) ^ 2 in
  (forall batch (w : World G),
     sample_many_batch model sigmas eps T batch w
     = after_levels model sigmas eps T L batch w
     /\ after_levels model sigmas eps T 0 batch w = Ret (batch, w))
  /\ (forall i batch (w : World G), (i < L)%nat ->
        after_levels model sigmas eps T (S i) batch w
        = bind (after_levels model sigmas eps T i batch)
            (fun x => bind (lift (dim0 x)) (fun n =>
               langevin_steps model (repeat (Z.of_nat i) n) (alpha i) T x))
            w)
  /\ (forall w : World G,
        sample_and_save dataset_image_size model sigmas eps T n_images w
        = bind (draw_uniform (n_images :: dataset_image_size))
            (after_levels_saving model sigmas eps T n_images L) w)
  /\ (forall i x (w : World G), (i < L)%nat ->
        after_levels_saving model sigmas eps T n_images 0 x w = Ret (x, w)
        /\ after_levels_saving model sigmas eps T n_images (S i) x w
           = bind (after_levels_saving model sigmas eps T n_images i x)
               (for_each (range T)
                  (fun t x =>
                     bind (sample_one_step model x
                             (repeat (Z.of_nat i) n_images) (alpha i))
                       (fun x' =>
                          if ((t + 1) mod 10 =? 0)%nat
                          then bind (save_as_grid x' (i + 1) (t + 1))
                                 (fun _ => ret x')
                          else ret x'))) w)
  /\ (forall i (w : World G),
        returns
          (bind (draw_uniform (n_images :: dataset_image_size))
             (after_levels_saving model sigmas eps T n_images i)) w
          (fun x _ => dim0 x = Ret (length (repeat (Z.of_nat i) n_images)))).
Proof.
  intros Hm Hs L alpha.
  split; [|split; [|split; [|split]]].
  - intros batch w. split; [apply after_levels_all | reflexivity].
  - intros i batch w Hi. rewrite after_levels_succ by exact Hi.
    apply bind_ext. intros x w'. unfold sample_many_level, alpha, L.
    now rewrite last_nth.
  - intros w. unfold sample_and_save, after_levels_saving, L.
    apply bind_ext. intros x w'.
    rewrite <- (enumerate_length sigmas). now rewrite firstn_all.
  - intros i x w Hi. split; [reflexivity|].
    rewrite after_levels_saving_succ by exact Hi.
    apply bind_ext. intros y w'. unfold sample_and_save_level, alpha, L.
    rewrite last_nth. reflexivity.
  - intros i w. rewrite repeat_length.
    apply (returns_bind _ _ _
             (fun x _ => shape x = n_images :: dataset_image_size /\ wf x)).
    + apply draw_uniform_returns.
    + intros x w' [Sx Wx].
      eapply returns_weaken.
      * now apply (after_levels_saving_shape model sigmas eps T n_images i
                     dataset_image_size).
      * intros y _ [Sy _]. unfold dim0. now rewrite Sy.
Qed.

End ChainingFacts.

(** ** Batching *)

Lemma batch_count_covers (n b : nat) :
  (1 <= b)%nat -> (n <= (n + b - 1) / b * b)%nat.
Proof.
  intros Hb.
  pose proof (Nat.div_mod_eq (n + b - 1) b) as E.
  pose proof (Nat.mod_upper_bound (n + b - 1) b) as U.
  nia.
Qed.

Lemma batch_start_inside (n b j : nat) :
  (1 <= b)%nat -> (j < (n + b - 1) / b)%nat -> (j * b < n)%nat.
Proof.
  intros Hb Hj.
  pose proof (Nat.div_mod_eq (n + b - 1) b) as E.
  pose proof (Nat.mod_upper_bound (n + b - 1) b) as U.
  nia.
Qed.

Lemma batch_full_before_last (n b j : nat) :
  (1 <= b)%nat -> (S j < (n + b - 1) / b)%nat ->
  Nat.min b (n - j * b) = b.
Proof.
  intros Hb Hj.
  pose proof (batch_start_inside n b (S j) Hb Hj). simpl in *. lia.
Qed.

Lemma sum_batch_rows (n b k : nat) :
  list_sum (map (fun j => Nat.min b (n - j * b)) (seq 0 k))
  = Nat.min (k * b) n.
Proof.
  induction k as [|k IH]; [reflexivity|].
  rewrite seq_S, map_app, list_sum_app, IH. simpl. lia.
Qed.

Lemma slice_rows_wf (start cnt n : nat) (s : list nat) (x : Tensor) :
  shape x = n :: s -> wf x -> (start + cnt <= n)%nat ->
  wf (slice_rows start cnt x).
Proof.
  intros Sx Wx Hle. unfold wf, slice_rows in *. rewrite Sx in *. simpl in *.
  rewrite length_firstn, length_skipn, Wx. nia.
Qed.

Lemma dataset_batch_run (b n : nat) (s : list nat) (x : Tensor) :
  shape x = n :: s -> (1 <= b)%nat ->
  dataset_batch b x
  = Ret (map (fun j => slice_rows (j * b) (Nat.min b (n - j * b)) x)
           (seq 0 ((n + b - 1) / b))).
Proof.
  intros Sx Hb. unfold dataset_batch. rewrite Sx.
  destruct (Nat.eqb_spec b 0); [lia | reflexivity].
Qed.

Lemma concat0_run (a b : Tensor) (na nb : nat) (s : list nat) :
  shape a = na :: s -> shape b = nb :: s -> wf a -> wf b ->
  exists c, concat0 a b = Ret c
            /\ shape c = (na + nb)%nat :: s /\ wf c.
Proof.
  intros Sa Sb Wa Wb. unfold concat0. rewrite Sa, Sb.
  destruct (list_eq_dec Nat.eq_dec s s) as [_|N]; [|congruence].
  eexists. split; [reflexivity|]. split; [reflexivity|].
  unfold wf in *. rewrite Sa in Wa. rewrite Sb in Wb. simpl in *.
  rewrite length_app, Wa, Wb. lia.
Qed.

Section BatchFacts.

Context {G : Type} {RS : RandomSource G} {RL : RandomSourceLaws G}.

Variables (model : Model) (sigmas : list R) (eps : R) (T b : nat).
Variable s : list nat.
Hypothesis model_ok : shape_preserving model.

Lemma sample_many_iteration_grows (batch acc : Tensor) (c : nat)
    (w : World G) :
  is_batch s batch -> is_batch s acc ->
  returns (sample_many_iteration model sigmas b eps T batch (Some acc, c)) w
    (fun st _ => exists t, fst st = Some t /\ is_batch s t
                           /\ rows t = (rows acc + rows batch)%nat).
Proof.
  intros (Tb & Nb & Wb) (Ta & Na & Wa). unfold sample_many_iteration.
  apply (returns_bind _ _ _ (fun y _ => shape y = shape batch /\ wf y)).
  - now apply sample_many_batch_shape.
  - intros y w' [Sy Wy].
    destruct (shape batch) as [|nb sb] eqn:Eb; [congruence|].
    destruct (shape acc) as [|na sa] eqn:Ea; [congruence|].
    simpl in Tb, Ta. subst sa sb.
    destruct (concat0_run acc y na nb s Ea Sy Wa Wy) as (z & Ez & Sz & Wz).
    apply (returns_bind _ _ _
             (fun o _ => exists t, o = Some t /\ is_batch s t
                                  /\ rows t = (na + nb)%nat)).
    + apply (returns_bind _ _ _ (fun t _ => t = z)).
      * now apply (returns_lift _ z).
      * intros t w'' ->. apply returns_ret. exists z. split; [reflexivity|].
        unfold is_batch, rows. rewrite Sz. simpl.
        repeat split; [discriminate | exact Wz].
    + intros o w'' (t & -> & Ht & Rt). apply returns_ret.
      exists t. simpl. unfold rows at 2 3. now rewrite Ea, Eb.
Qed.

Lemma sample_many_iteration_first (batch : Tensor) (c : nat) (w : World G) :
  is_batch s batch ->
  returns (sample_many_iteration model sigmas b eps T batch (None, c)) w
    (fun st _ => exists t, fst st = Some t /\ is_batch s t
                           /\ rows t = rows batch).
Proof.
  intros (Tb & Nb & Wb). unfold sample_many_iteration.
  apply (returns_bind _ _ _ (fun y _ => shape y = shape batch /\ wf y)).
  - now apply sample_many_batch_shape.
  - intros y w' [Sy Wy].
    apply (returns_bind _ _ _ (fun o _ => o = Some y)).
    + now apply returns_ret.
    + intros o w'' ->. apply returns_ret. exists y. split; [reflexivity|].
      unfold is_batch, rows. rewrite Sy. repeat split; assumption.
Qed.

Lemma batches_loop_from (l : list Tensor) (acc : Tensor) (c : nat)
    (w : World G) :
  Forall (is_batch s) l -> is_batch s acc ->
  returns (for_each l (sample_many_iteration model sigmas b eps T)
             (Some acc, c)) w
    (fun st _ => exists t, fst st = Some t /\ is_batch s t
                           /\ rows t = (rows acc + list_sum (map rows l))%nat).
Proof.
  revert acc c w. induction l as [|a l IH]; intros acc c w Hl Ha.
  - apply returns_ret. exists acc. simpl. repeat split; try apply Ha. lia.
  - inversion Hl as [|? ? Hb Hl']; subst. cbn [for_each].
    eapply returns_bind.
    + now apply sample_many_iteration_grows.
    + intros [o c'] w' (t & Eo & Ht & Rt). simpl in Eo. subst o.
      eapply returns_weaken.
      * apply IH; assumption.
      * intros st _ (t' & E' & Ht' & Rt'). exists t'.
        split; [exact E'|]. split; [exact Ht'|].
        change (list_sum (map rows (a :: l)))
          with (rows a + list_sum (map rows l))%nat. lia.
Qed.

Lemma batches_loop (l : list Tensor) (w : World G) :
  Forall (is_batch s) l -> l <> [] ->
  returns (for_each l (sample_many_iteration model sigmas b eps T)
             (None, 0%nat)) w
    (fun st _ => exists t, fst st = Some t /\ is_batch s t
                           /\ rows t = list_sum (map rows l)).
Proof.
  intros Hl Hne. destruct l as [|a l]; [congruence|].
  inversion Hl as [|? ? Hb Hl']; subst. cbn [for_each].
  eapply returns_bind.
  - now apply sample_many_iteration_first.
  - intros [o c'] w' (t & Eo & Ht & Rt). simpl in Eo. subst o.
    eapply returns_weaken.
    + apply batches_loop_from; assumption.
    + intros st _ (t' & E' & Ht' & Rt'). exists t'.
      split; [exact E'|]. split; [exact Ht'|].
      change (list_sum (map rows (a :: l)))
        with (rows a + list_sum (map rows l))%nat. lia.
Qed.

Lemma is_batch_shape (t : Tensor) :
  is_batch s t -> shape t = rows t :: s.
Proof.
  intros (Tt & Nt & _). unfold rows. destruct (shape t); [congruence|].
  simpl in *. now subst.
Qed.

Lemma concat_rows_cons (t : Tensor) (ts : list Tensor) :
  concat_rows s (t :: ts)
  = mkTensor ((rows t + rows (concat_rows s ts))%nat :: s)
      (data t ++ data (concat_rows s ts)).
Proof. reflexivity. Qed.

Lemma bind_Ret {A B : Type} (c : M G A) (k : A -> M G B) (w w' : World G)
    (a : A) :
  c w = Ret (a, w') -> bind c k w = k a w'.
Proof. intros E. unfold bind. now rewrite E. Qed.

Lemma iteration_run_next (batch acc y z : Tensor) (c : nat)
    (w w1 : World G) :
  sample_many_batch model sigmas eps T batch w = Ret (y, w1) ->
  concat0 acc y = Ret z ->
  sample_many_iteration model sigmas b eps T batch (Some acc, c) w
  = Ret ((Some z, (c + b)%nat), w1).
Proof.
  intros E Ez. unfold sample_many_iteration, bind, lift, ret.
  now rewrite E, Ez.
Qed.

Lemma iteration_run_first (batch y : Tensor) (c : nat) (w w1 : World G) :
  sample_many_batch model sigmas eps T batch w = Ret (y, w1) ->
  sample_many_iteration model sigmas b eps T batch (None, c) w
  = Ret ((Some y, (c + b)%nat), w1).
Proof.
  intros E. unfold sample_many_iteration, bind, ret. now rewrite E.
Qed.

(** The loop over the batches, started with something already processed, is
    the batches run one after the other and their outputs appended. *)
Lemma batches_loop_appends (l : list Tensor) (acc : Tensor) (c : nat)
    (w : World G) :
  Forall (is_batch s) l -> is_batch s acc ->
  for_each l (sample_many_iteration model sigmas b eps T) (Some acc, c) w
  = bind (process_batches model sigmas eps T l)
      (fun outs =>
         ret (Some (concat_rows s (acc :: outs)), (c + length l * b)%nat))
      w.
Proof.
  revert acc c w. induction l as [|a l IH]; intros acc c w Hl Ha.
  - cbn [for_each process_batches]. unfold bind, ret.
    rewrite concat_rows_cons. unfold concat_rows.
    cbn [map concat length data shape rows hd].
    change (list_sum []) with 0%nat. rewrite app_nil_r.
    replace (c + 0 * b)%nat with c by lia.
    rewrite Nat.add_0_r, <- (is_batch_shape acc Ha). now destruct acc.
  - inversion Hl as [|? ? Hb Hl']; subst.
    cbn [for_each process_batches].
    pose proof Hb as (Tb & Nb & Wb).
    destruct (sample_many_batch_shape model sigmas eps T a w model_ok Wb Nb)
      as (y & w1 & E & Sy & Wy).
    assert (Hy : is_batch s y).
    { split; [now rewrite Sy | split; [now rewrite Sy | exact Wy]]. }
    pose proof (is_batch_shape acc Ha) as Sacc.
    pose proof (is_batch_shape y Hy) as Sy'.
    pose proof Ha as (Ta & Na & Wa).
    destruct (concat0_run acc y (rows acc) (rows y) s Sacc Sy' Wa Wy)
      as (z & Ez & Sz & Wz).
    assert (Hz : z = mkTensor ((rows acc + rows y)%nat :: s)
                       (data acc ++ data y)).
    { unfold concat0 in Ez. rewrite Sacc, Sy' in Ez.
      destruct (list_eq_dec Nat.eq_dec s s) as [_|N]; [|congruence].
      now injection Ez as <-. }
    rewrite (bind_Ret _ _ _ _ _ (iteration_run_next a acc y z c w w1 E Ez)).
    rewrite IH; [|exact Hl'|].
    2:{ split; [now rewrite Sz | split; [rewrite Sz; discriminate|exact Wz]]. }
    rewrite bind_assoc. rewrite (bind_Ret _ _ _ _ _ E).
    rewrite bind_assoc. apply bind_ext. intros outs w2.
    unfold bind, ret. do 3 f_equal.
    + subst z. rewrite !concat_rows_cons.
      cbn [data shape]. unfold rows at 1. cbn [shape hd].
      rewrite app_assoc. f_equal.
      change (rows (mkTensor ((rows y + rows (concat_rows s outs))%nat :: s)
                      (data y ++ data (concat_rows s outs))))
        with (rows y + rows (concat_rows s outs))%nat.
      now rewrite Nat.add_assoc.
    + cbn [length]. rewrite Nat.mul_succ_l. lia.
Qed.

Lemma batches_loop_collects (l : list Tensor) (w : World G) :
  Forall (is_batch s) l -> l <> [] ->
  bind (for_each l (sample_many_iteration model sigmas b eps T)
          (None, 0%nat)) (fun st => ret (fst st)) w
  = bind (process_batches model sigmas eps T l)
      (fun outs => ret (Some (concat_rows s outs))) w.
Proof.
  intros Hl Hne. destruct l as [|a l]; [congruence|].
  inversion Hl as [|? ? Hb Hl']; subst.
  cbn [for_each process_batches].
  pose proof Hb as (Tb & Nb & Wb).
  destruct (sample_many_batch_shape model sigmas eps T a w model_ok Wb Nb)
    as (y & w1 & E & Sy & Wy).
  assert (Hy : is_batch s y).
  { split; [now rewrite Sy | split; [now rewrite Sy | exact Wy]]. }
  rewrite !bind_assoc.
  rewrite (bind_Ret _ _ _ _ _ (iteration_run_first a y 0 w w1 E)).
  rewrite (bind_Ret _ _ _ _ _ E).
  unfold bind at 1. rewrite batches_loop_appends by assumption.
  rewrite bind_assoc. unfold bind.
  destruct (process_batches model sigmas eps T l w1) as [[outs w2]|];
    reflexivity.
Qed.

Lemma process_batches_shapes (l : list Tensor) (w : World G) :
  Forall (is_batch s) l ->
  returns (process_batches model sigmas eps T l) w
    (fun outs _ => map shape outs = map shape l /\ Forall wf outs).
Proof.
  revert w. induction l as [|a l IH]; intros w Hl.
  - apply returns_ret. split; [reflexivity | constructor].
  - inversion Hl as [|? ? Hb Hl']; subst. cbn [process_batches].
    destruct Hb as (Tb & Nb & Wb).
    apply (returns_bind _ _ _ (fun y _ => shape y = shape a /\ wf y)).
    + now apply sample_many_batch_shape.
    + intros y w1 [Sy Wy].
      apply (returns_bind _ _ _
               (fun outs _ => map shape outs = map shape l
                              /\ Forall wf outs)).
      * now apply IH.
      * intros outs w2 [So Wo]. apply returns_ret.
        split; [simpl; congruence | now constructor].
Qed.

End BatchFacts.

Lemma last_batch_rows (n b : nat) :
  (1 <= b)%nat -> (1 <= n)%nat ->
  Nat.min b (n - ((n + b - 1) / b - 1) * b)
  = if (n mod b =? 0)%nat then b else (n mod b)%nat.
Proof.
  intros Hb Hn.
  pose proof (batch_count_covers n b Hb) as Hc.
  assert (H1 : (1 <= (n + b - 1) / b)%nat)
    by (apply Nat.div_le_lower_bound; lia).
  pose proof (batch_start_inside n b ((n + b - 1) / b - 1) Hb) as Hi.
  assert (Hi' : (((n + b - 1) / b - 1) * b < n)%nat) by (apply Hi; lia).
  clear Hi.
  pose proof (Nat.div_mod_eq n b) as E.
  pose proof (Nat.mod_upper_bound n b) as U.
  set (c := ((n + b - 1) / b)%nat) in *.
  set (q := (n / b)%nat) in *. set (r := (n mod b)%nat) in *.
  destruct (Nat.eqb_spec r 0) as [Z|NZ].
  - assert (c = q) by nia. subst c. nia.
  - assert (c = S q) by nia. nia.
Qed.

Section SampleManyFacts.

Context {G : Type} {RS : RandomSource G} {RL : RandomSourceLaws G}.

(** C10. With [n_images >= 1] and [batch_size >= 1], [sample_many] behaves
    as if called with [min(batch_size, n_images)]; it cuts the uniform
    initial tensor into consecutive sub-batches that all have that many
    rows, except the last one, which has what is left when the batch size
    does not divide [n_images]; on each sub-batch the index vector of every
    level has as many entries as the sub-batch has rows; and the tensor it
    returns has exactly [n_images] rows.  The run of [sample_many] is the
    uniform draw, then the loop over the levels on each of these
    sub-batches in turn, and its result is the outputs, which have the
    shapes of the sub-batches, put one after the other along axis 0. *)
Theorem sample_many_batches (dataset_image_size : list nat) (model : Model)
    (sigmas : list R) (batch_size : nat) (eps : R) (T n_images : nat)
    (w : World G) :
  (1 <= n_images)%nat -> (1 <= batch_size)%nat -> shape_preserving model ->
  let b := Nat.min batch_size n_images in
  let x0 := fst (random_uniform (n_images :: dataset_image_size) (rng w)) in
  let count := ((n_images + b - 1) / b)%nat in
  let rows_of j := Nat.min b (n_images - j * b) in
  exists batches,
    dataset_batch b x0 = Ret batches
    /\ length batches = count
    /\ (forall j, (j < count)%nat ->
          shape (nth j batches x0) = rows_of j :: dataset_image_size
          /\ (1 <= rows_of j <= b)%nat
          /\ (S j < count -> rows_of j = b)%nat
          /\ forall level y (w' : World G),
               shape y = shape (nth j batches x0) ->
               sample_many_level model sigmas eps T level y w'
               = langevin_steps model
                   (repeat (Z.of_nat (fst level)) (rows_of j))
                   (eps * (snd level / last sigmas 0) ^ 2) T y w')
    /\ rows_of (count - 1)%nat
       = (if (n_images mod b =? 0)%nat then b else n_images mod b)%nat
    /\ list_sum (map rows batches) = n_images
    /\ sample_many dataset_image_size model sigmas batch_size eps T
         n_images w
       = sample_many dataset_image_size model sigmas b eps T n_images w
    /\ returns
         (sample_many dataset_image_size model sigmas batch_size eps T
            n_images) w
         (fun r _ => exists out,
            r = Some out
            /\ shape out = n_images :: dataset_image_size /\ wf out)
    /\ sample_many dataset_image_size model sigmas batch_size eps T
         n_images w
       = bind (draw_uniform (n_images :: dataset_image_size))
           (fun _ =>
              bind (process_batches model sigmas eps T batches)
                (fun outs =>
                   ret (Some (concat_rows dataset_image_size outs)))) w
    /\ (forall batch rest (w' : World G),
          process_batches model sigmas eps T (batch :: rest) w'
          = bind (for_each (enumerate sigmas)
                    (sample_many_level model sigmas eps T) batch)
              (fun out =>
                 bind (process_batches model sigmas eps T rest)
                   (fun outs => ret (out :: outs))) w')
    /\ returns
         (sample_many dataset_image_size model sigmas batch_size eps T
            n_images) w
         (fun r _ => exists outs,
            r = Some (concat_rows dataset_image_size outs)
            /\ map shape outs = map shape batches /\ Forall wf outs).
Proof.
  intros Hn Hbs Hm b x0 count rows_of.
  assert (Hb : (1 <= b)%nat) by (unfold b; lia).
  assert (Sx : shape x0 = n_images :: dataset_image_size)
    by apply uniform_shape.
  assert (Wx : wf x0) by apply uniform_wf.
  pose proof (dataset_batch_run b n_images dataset_image_size x0 Sx Hb) as Eb.
  fold count in Eb.
  set (cut := fun j => slice_rows (j * b) (Nat.min b (n_images - j * b)) x0)
    in Eb.
  assert (Hnth : forall j, (j < count)%nat ->
                   nth j (map cut (seq 0 count)) x0 = cut j).
  { intros j Hj. rewrite (nth_indep _ x0 (cut 0%nat))
      by now rewrite length_map, length_seq.
    rewrite map_nth, seq_nth; auto. }
  assert (Hsum : list_sum (map rows (map cut (seq 0 count))) = n_images).
  { rewrite map_map. unfold rows, cut, slice_rows. simpl.
    rewrite sum_batch_rows.
    pose proof (batch_count_covers n_images b Hb). fold count in H. lia. }
  assert (Hcount : (1 <= count)%nat)
    by (apply Nat.div_le_lower_bound; lia).
  assert (Hall : Forall (is_batch dataset_image_size)
                   (map cut (seq 0 count))).
  { apply Forall_forall. intros t Ht.
    apply in_map_iff in Ht. destruct Ht as (j & <- & Hj).
    apply in_seq in Hj.
    pose proof (batch_start_inside n_images b j Hb) as Hin.
    unfold cut. split; [|split].
    - unfold slice_rows. simpl. now rewrite Sx.
    - unfold slice_rows. simpl. discriminate.
    - apply (slice_rows_wf _ _ n_images dataset_image_size);
        [exact Sx | exact Wx | lia]. }
  assert (Hne : map cut (seq 0 count) <> []).
  { destruct count; [lia | discriminate]. }
  assert (Hrun : sample_many dataset_image_size model sigmas batch_size eps
                   T n_images w
                 = bind (draw_uniform (n_images :: dataset_image_size))
                     (fun _ =>
                        bind (process_batches model sigmas eps T
                                (map cut (seq 0 count)))
                          (fun outs =>
                             ret (Some (concat_rows dataset_image_size
                                          outs)))) w).
  { unfold sample_many. fold b.
    replace (Nat.min b n_images) with b by (unfold b; lia).
    assert (Ed : exists w1,
               draw_uniform (n_images :: dataset_image_size) w
               = Ret (x0, w1)).
    { unfold draw_uniform, x0.
      destruct (random_uniform (n_images :: dataset_image_size) (rng w)).
      eexists. reflexivity. }
    destruct Ed as (w1 & Ed).
    rewrite !(bind_Ret _ _ _ _ _ Ed).
    rewrite Eb. unfold bind at 1, lift.
    now apply (batches_loop_collects model sigmas eps T b
                 dataset_image_size Hm). }
  exists (map cut (seq 0 count)).
  split; [exact Eb|]. split; [now rewrite length_map, length_seq|].
  split; [|split; [|split; [exact Hsum|split; [|split; [|split;
    [exact Hrun|split]]]]]].
  - intros j Hj. rewrite (Hnth j Hj).
    pose proof (batch_start_inside n_images b j Hb Hj) as Hin.
    split; [unfold cut, slice_rows; now rewrite Sx|].
    split; [unfold rows_of; lia|].
    split; [intros Hj'; now apply batch_full_before_last|].
    intros [i sigma_i] y w' Sy. unfold sample_many_level, bind, lift, dim0.
    rewrite Sy. unfold cut, slice_rows. reflexivity.
  - apply last_batch_rows; assumption.
  - unfold sample_many. fold b.
    replace (Nat.min b n_images) with b by (unfold b; lia). reflexivity.
  - unfold sample_many. fold b.
    apply (returns_bind _ _ _
             (fun x w1 => x = x0)).
    + unfold returns, draw_uniform, x0.
      destruct (random_uniform (n_images :: dataset_image_size) (rng w)).
      eexists. eexists. split; reflexivity.
    + intros x w1 ->.
      apply (returns_bind _ _ _ (fun l _ => l = map cut (seq 0 count))).
      * now apply (returns_lift _ (map cut (seq 0 count))).
      * intros l w2 ->.
        eapply returns_bind.
        -- now apply (batches_loop model sigmas eps T b dataset_image_size
                        Hm).
        -- intros st w3 (t & Et & (Tt & Nt & Wt) & Rt).
           apply returns_ret. exists t. split; [exact Et|].
           split; [|exact Wt].
           rewrite Hsum in Rt. unfold rows in Rt.
           destruct (shape t) as [|r s']; [congruence|].
           simpl in *. congruence.
  - reflexivity.
  - apply (returns_eq _ _ _ _ Hrun).
    apply (returns_bind _ _ _ (fun _ _ => True)).
    + eapply returns_weaken; [apply draw_uniform_returns | easy].
    + intros _ w1 _.
      eapply returns_bind.
      * now apply (process_batches_shapes model sigmas eps T
                     dataset_image_size Hm).
      * intros outs w2 [So Wo]. apply returns_ret. now exists outs.
Qed.

End SampleManyFacts.

(** ** Broadcasting one scalar per example over a batch of images *)

Lemma div_mod_block (q c n : nat) :
  (c < n)%nat -> ((q * n + c) / n = q /\ (q * n + c) mod n = c)%nat.
Proof.
  intros Hc. split.
  - symmetry. apply (Nat.div_unique _ _ _ c); lia.
  - symmetry. apply (Nat.mod_unique _ _ q); lia.
Qed.

Lemma offset4_bound (B H W C b h w c : nat) :
  (b < B)%nat -> (h < H)%nat -> (w < W)%nat -> (c < C)%nat ->
  (((b * H + h) * W + w) * C + c < B * (H * (W * C)))%nat.
Proof.
  intros Hb Hh Hw Hc.
  assert (E1 : (b * H + h + 1 <= B * H)%nat) by nia.
  assert (E2 : ((b * H + h) * W + w + 1 <= B * H * W)%nat) by nia.
  assert (E3 : (((b * H + h) * W + w) * C + c + 1 <= B * H * W * C)%nat)
    by nia.
  lia.
Qed.

Lemma offset4_example (H W C b h w c : nat) :
  (h < H)%nat -> (w < W)%nat -> (c < C)%nat ->
  ((((b * H + h) * W + w) * C + c) / (H * (W * C)) = b)%nat.
Proof.
  intros Hh Hw Hc.
  assert (R : ((h * W + w) * C + c < H * (W * C))%nat).
  { pose proof (offset4_bound 1 H W C 0 h w c). simpl in H0.
    rewrite Nat.add_0_r in H0. apply H0; lia. }
  symmetry. apply (Nat.div_unique _ _ _ ((h * W + w) * C + c)); [exact R|].
  lia.
Qed.

Lemma broadcast_shape_rows_l (B H W C : nat) :
  broadcast_shape [B; 1; 1; 1]%nat [B; H; W; C] = Ret [B; H; W; C].
Proof.
  unfold broadcast_shape. cbn -[Nat.eqb]. rewrite Nat.eqb_refl.
  destruct (Nat.eqb_spec 1 H) as [<-|_];
    destruct (Nat.eqb_spec 1 W) as [<-|_];
    destruct (Nat.eqb_spec 1 C) as [<-|_]; reflexivity.
Qed.

Lemma broadcast_shape_rows_r (B H W C : nat) :
  broadcast_shape [B; H; W; C] [B; 1; 1; 1]%nat = Ret [B; H; W; C].
Proof.
  unfold broadcast_shape. cbn -[Nat.eqb]. rewrite Nat.eqb_refl.
  destruct (Nat.eqb_spec H 1) as [->|_];
    destruct (Nat.eqb_spec W 1) as [->|_];
    destruct (Nat.eqb_spec C 1) as [->|_]; reflexivity.
Qed.

Lemma source_index_rows (B H W C k : nat) :
  (k < B * (H * (W * C)))%nat ->
  source_index [B; 1; 1; 1]%nat [B; H; W; C] k = (k / (H * (W * C)))%nat.
Proof.
  intros Hk. unfold source_index. cbn -[Nat.eqb Nat.div Nat.modulo].
  rewrite Nat.eqb_refl.
  replace (k / C / W / H)%nat with (k / (H * (W * C)))%nat
    by (rewrite !Nat.Div0.div_div; f_equal; lia).
  assert (Hq : (k / (H * (W * C)) < B)%nat)
    by (apply Nat.Div0.div_lt_upper_bound; lia).
  destruct (Nat.eqb_spec B 1) as [->|_].
  - lia.
  - rewrite Nat.mod_small by exact Hq. lia.
Qed.

Lemma numel4 (B H W C : nat) :
  numel [B; H; W; C] = (B * (H * (W * C)))%nat.
Proof. simpl. lia. Qed.

Lemma broadcast2_rows_l (f : R -> R -> R) (a t : Tensor) (B H W C : nat) :
  shape a = [B; 1; 1; 1]%nat -> shape t = [B; H; W; C] ->
  broadcast2 f a t
  = Ret (mkTensor [B; H; W; C]
           (tabulate (B * (H * (W * C)))
              (fun k => f (tget a (k / (H * (W * C)))) (tget t k)))).
Proof.
  intros Sa St. unfold broadcast2.
  rewrite Sa, St, broadcast_shape_rows_l, numel4.
  f_equal. f_equal. apply tabulate_ext. intros k Hk.
  rewrite source_index_rows by exact Hk.
  rewrite source_index_same by now rewrite numel4.
  reflexivity.
Qed.

Lemma broadcast2_rows_r (f : R -> R -> R) (t a : Tensor) (B H W C : nat) :
  shape t = [B; H; W; C] -> shape a = [B; 1; 1; 1]%nat ->
  broadcast2 f t a
  = Ret (mkTensor [B; H; W; C]
           (tabulate (B * (H * (W * C)))
              (fun k => f (tget t k) (tget a (k / (H * (W * C))))))).
Proof.
  intros St Sa. unfold broadcast2.
  rewrite Sa, St, broadcast_shape_rows_r, numel4.
  f_equal. f_equal. apply tabulate_ext. intros k Hk.
  rewrite source_index_rows by exact Hk.
  rewrite source_index_same by now rewrite numel4.
  reflexivity.
Qed.

Lemma tget_tabulate (s : list nat) (n : nat) (f : nat -> R) (k : nat) :
  (k < n)%nat -> tget (mkTensor s (tabulate n f)) k = f k.
Proof. intros Hk. unfold tget. simpl. now apply nth_tabulate. Qed.

Lemma tmap_tabulate (g : R -> R) (s : list nat) (n : nat) (f : nat -> R) :
  tmap g (mkTensor s (tabulate n f))
  = mkTensor s (tabulate n (fun k => g (f k))).
Proof. unfold tmap, tabulate. simpl. now rewrite map_map. Qed.

(** ** The denoising loss *)

Lemma loss_per_batch_value (num_L B H W C : nat)
    (score x_perturbed x sigmas : Tensor) :
  shape score = [B; H; W; C] -> shape x_perturbed = [B; H; W; C] ->
  shape x = [B; H; W; C] -> shape sigmas = [B; 1; 1; 1]%nat ->
  Losses.loss_per_batch num_L score x_perturbed x sigmas
  = Ret (loss_spec num_L B H W C score x_perturbed x sigmas).
Proof.
  intros Ss Sp Sx Sg. unfold Losses.loss_per_batch, bmul, bsub, bdiv, badd.
  rewrite (broadcast2_rows_l Rmult sigmas score B H W C Sg Ss).
  cbn [rbind].
  rewrite (broadcast2_same_shape Rminus x_perturbed x) by congruence.
  cbn [rbind]. rewrite Sp, numel4.
  rewrite (broadcast2_rows_r Rdiv _ sigmas B H W C)
    by (reflexivity || assumption).
  cbn [rbind].
  rewrite broadcast2_same_shape by reflexivity.
  cbn [rbind shape]. rewrite numel4.
  unfold tf_norm, reduce_sum. cbn [fold_right rbind]. rewrite tmap_tabulate.
  unfold reduce_sum_axis at 1.
  cbn [shape length Nat.ltb Nat.leb nth firstn skipn app numel fold_right].
  cbn [rbind].
  unfold reduce_sum_axis at 1.
  cbn [shape length Nat.ltb Nat.leb nth firstn skipn app numel fold_right].
  cbn [rbind]. rewrite tmap_tabulate.
  unfold tf_norm_last. cbn [shape length].
  unfold tf_norm, reduce_sum. cbn [fold_right rbind]. rewrite tmap_tabulate.
  unfold reduce_sum_axis at 1.
  cbn [shape length Nat.ltb Nat.leb nth firstn skipn app numel fold_right].
  cbn [rbind]. rewrite !tmap_tabulate.
  unfold reduce_mean. cbn [data].
  rewrite length_tabulate, fold_right_tabulate.
  rewrite !Nat.mul_1_r. unfold loss_spec.
  apply f_equal. apply (f_equal (fun v => 0.5 * (v / INR B) / INR num_L)).
  apply sumn_ext. intros b Hb. unfold channel_norm.
  apply f_equal. apply f_equal. apply sumn_ext. intros c Hc.
  rewrite Nat.div_1_r, Nat.mod_1_r, Nat.add_0_r, Nat.mul_1_r.
  rewrite tget_tabulate by nia.
  apply f_equal. unfold spatial_norm. apply f_equal.
  destruct (div_mod_block b c C Hc) as [-> ->].
  apply sumn_ext. intros h Hh.
  assert (Hk3 : ((b * H + h) * C + c < B * H * C)%nat).
  { assert ((b * H + h + 1 <= B * H)%nat) by nia. nia. }
  rewrite tget_tabulate by exact Hk3.
  destruct (div_mod_block (b * H + h) c C Hc) as [-> ->].
  apply sumn_ext. intros w Hw.
  pose proof (offset4_bound B H W C b h w c Hb Hh Hw Hc) as Hk.
  rewrite tget_tabulate by exact Hk.
  apply f_equal.
  rewrite !tget_tabulate by exact Hk.
  rewrite offset4_example by assumption.
  reflexivity.
Qed.

(** C5. On [score], [x_perturbed] and [x] of one shape [(B, H, W, C)] and
    one sigma per example, [loss_per_batch] returns one scalar: per example
    the norm over the spatial dimensions of
    [sigma * score + (x_perturbed - x) / sigma], then the norm of that over
    the channels, squared, averaged over the batch, times 0.5, divided by
    [num_L]. *)
Theorem loss_per_batch_computes (num_L B H W C : nat)
    (score x_perturbed x sigmas : Tensor) :
  shape score = [B; H; W; C] -> shape x_perturbed = [B; H; W; C] ->
  shape x = [B; H; W; C] -> shape sigmas = [B; 1; 1; 1]%nat ->
  Losses.loss_per_batch num_L score x_perturbed x sigmas
  = Ret (0.5
         * (sumn B (fun b =>
              Rsqr (sqrt (sumn C (fun c =>
                Rsqr (sqrt (sumn H (fun h => sumn W (fun w =>
                  Rsqr (tget sigmas b * at4 score H W C b h w c
                        + (at4 x_perturbed H W C b h w c
                           - at4 x H W C b h w c) / tget sigmas b)))))))))
            / INR B)
         / INR num_L).
Proof. apply loss_per_batch_value. Qed.

Lemma example_energy (H W C : nat) (score x_perturbed x sigmas : Tensor)
    (b : nat) :
  Rsqr (channel_norm H W C score x_perturbed x sigmas b)
  = sumn C (fun c => sumn H (fun h => sumn W (fun w =>
      Rsqr (residual H W C score x_perturbed x sigmas b h w c)))).
Proof.
  assert (Hin : forall c, 0 <= sumn H (fun h => sumn W (fun w =>
            Rsqr (residual H W C score x_perturbed x sigmas b h w c)))).
  { intros c. apply sumn_nonneg. intros h _. apply sumn_nonneg.
    intros w _. apply Rle_0_sqr. }
  unfold channel_norm. rewrite Rsqr_sqrt.
  - apply sumn_ext. intros c _. unfold spatial_norm.
    now rewrite Rsqr_sqrt.
  - apply sumn_nonneg. intros c _. apply Rle_0_sqr.
Qed.

Lemma residual_zero_iff (sigma s p x : R) :
  0 < sigma ->
  sigma * s + (p - x) / sigma = 0 <-> s = (x - p) / Rsqr sigma.
Proof.
  intros Hs. assert (Hn : sigma <> 0) by lra. unfold Rsqr. split.
  - intros E.
    assert (E' : sigma * (sigma * s + (p - x) / sigma) = 0)
      by (rewrite E; ring).
    replace (sigma * (sigma * s + (p - x) / sigma))
      with (sigma * sigma * s + (p - x)) in E' by (field; exact Hn).
    apply (Rmult_eq_reg_l (sigma * sigma)); [|nra].
    replace (sigma * sigma * ((x - p) / (sigma * sigma))) with (x - p)
      by (field; exact Hn).
    lra.
  - intros ->. field. exact Hn.
Qed.

(** C6. With positive sigmas, a batch that is not empty and [num_L >= 1],
    [loss_per_batch] on inputs of one shape returns a value that is not
    negative, and that value is 0 exactly when
    [score = (x - x_perturbed) / sigma^2] at every entry of every example. *)
Theorem loss_per_batch_nonneg_zero (num_L B H W C : nat)
    (score x_perturbed x sigmas : Tensor) :
  shape score = [B; H; W; C] -> shape x_perturbed = [B; H; W; C] ->
  shape x = [B; H; W; C] -> shape sigmas = [B; 1; 1; 1]%nat ->
  (1 <= num_L)%nat -> (1 <= B)%nat ->
  (forall b, (b < B)%nat -> 0 < tget sigmas b) ->
  exists v,
    Losses.loss_per_batch num_L score x_perturbed x sigmas = Ret v
    /\ 0 <= v
    /\ (v = 0 <->
        forall b h w c,
          (b < B)%nat -> (h < H)%nat -> (w < W)%nat -> (c < C)%nat ->
          at4 score H W C b h w c
          = (at4 x H W C b h w c - at4 x_perturbed H W C b h w c)
            / Rsqr (tget sigmas b)).
Proof.
  intros Ss Sp Sx Sg HL HB Hpos.
  exists (loss_spec num_L B H W C score x_perturbed x sigmas).
  split; [now apply loss_per_batch_value|].
  assert (HBr : 0 < INR B) by (apply lt_0_INR; lia).
  assert (HLr : 0 < INR num_L) by (apply lt_0_INR; lia).
  set (S := sumn B (fun b =>
              Rsqr (channel_norm H W C score x_perturbed x sigmas b))).
  assert (HS : 0 <= S)
    by (apply sumn_nonneg; intros b _; apply Rle_0_sqr).
  assert (Hv : loss_spec num_L B H W C score x_perturbed x sigmas
               = S * (0.5 / (INR B * INR num_L))).
  { unfold loss_spec. fold S. field. lra. }
  assert (Hk : 0 < 0.5 / (INR B * INR num_L)).
  { apply Rdiv_lt_0_compat; [lra | nra]. }
  rewrite Hv. split; [nra|].
  assert (Hz : S * (0.5 / (INR B * INR num_L)) = 0 <-> S = 0) by nra.
  rewrite Hz. unfold S.
  rewrite sumn_zero_iff by (intros b _; apply Rle_0_sqr).
  split.
  - intros Z b h w c Hb Hh Hw Hc.
    specialize (Z b Hb). rewrite example_energy in Z.
    rewrite sumn_zero_iff in Z
      by (intros; apply sumn_nonneg; intros; apply sumn_nonneg;
          intros; apply Rle_0_sqr).
    specialize (Z c Hc).
    rewrite sumn_zero_iff in Z
      by (intros; apply sumn_nonneg; intros; apply Rle_0_sqr).
    specialize (Z h Hh).
    rewrite sumn_zero_iff in Z by (intros; apply Rle_0_sqr).
    specialize (Z w Hw). apply Rsqr_0_uniq in Z.
    unfold residual in Z. now apply residual_zero_iff in Z; [|apply Hpos].
  - intros E b Hb. rewrite example_energy.
    apply sumn_zero_iff;
      [intros; apply sumn_nonneg; intros; apply sumn_nonneg;
       intros; apply Rle_0_sqr|].
    intros c Hc.
    apply sumn_zero_iff;
      [intros; apply sumn_nonneg; intros; apply Rle_0_sqr|].
    intros h Hh.
    apply sumn_zero_iff; [intros; apply Rle_0_sqr|].
    intros w Hw. unfold residual.
    assert (R0 : tget sigmas b * at4 score H W C b h w c
                 + (at4 x_perturbed H W C b h w c - at4 x H W C b h w c)
                   / tget sigmas b = 0).
    { apply residual_zero_iff; [now apply Hpos | now apply E]. }
    rewrite R0. apply Rsqr_0.
Qed.

(** ** The noise schedule *)

Lemma linspace_length (start stop : R) (num : nat) :
  length (linspace start stop num) = num.
Proof.
  destruct num as [|[|n]]; [reflexivity | reflexivity |].
  unfold linspace. now rewrite length_map, length_seq.
Qed.

Lemma linspace_nth (start stop : R) (n i : nat) :
  (i < S (S n))%nat ->
  nth i (linspace start stop (S (S n))) 0
  = start + (stop - start) / INR (S n) * INR i.
Proof.
  intros Hi. unfold linspace.
  set (f := fun i : nat => start + (stop - start) / INR (S n) * INR i).
  rewrite (nth_indep _ 0 (f 0%nat)) by now rewrite length_map, length_seq.
  rewrite map_nth, seq_nth by exact Hi. reflexivity.
Qed.

Lemma sigma_levels_nth (hi lo : R) (n i : nat) :
  (i < S (S n))%nat ->
  nth i (sigma_levels hi lo (S (S n))) 0
  = exp (ln hi + (ln lo - ln hi) / INR (S n) * INR i).
Proof.
  intros Hi. unfold sigma_levels.
  rewrite (nth_indep _ 0 (exp 0))
    by now rewrite length_map, linspace_length.
  rewrite map_nth. f_equal. now apply linspace_nth.
Qed.

(** The schedule of a single level ends on [sigma_high], not on
    [sigma_low]. *)
Lemma sigma_levels_single_level_last :
  0 < 1 < 2 /\ (1 <= 1)%nat
  /\ sigma_levels 2 1 1 = [2] /\ last (sigma_levels 2 1 1) 0 <> 1.
Proof.
  assert (E : sigma_levels 2 1 1 = [2]).
  { unfold sigma_levels, linspace. simpl. rewrite exp_ln; [reflexivity|lra]. }
  split; [lra|]. split; [lia|]. split; [exact E|].
  rewrite E. simpl. lra.
Qed.

(** C3, amended. For [sigma_high > sigma_low > 0] and [num_L >= 1] the
    schedule has [num_L] elements, is strictly decreasing and starts with
    [sigma_high].  For [num_L >= 2] its elements are
    [exp(log sigma_high + (i / (L-1)) * (log sigma_low - log sigma_high))]
    and the last one is [sigma_low]; for [num_L = 1] it is the single value
    [sigma_high]. *)
Theorem sigma_levels_schedule (sigma_high sigma_low : R) (num_L : nat) :
  0 < sigma_low < sigma_high -> (1 <= num_L)%nat ->
  let s := sigma_levels sigma_high sigma_low num_L in
  length s = num_L
  /\ strictly_decreasing s
  /\ nth 0 s 0 = sigma_high
  /\ ((2 <= num_L)%nat ->
      (forall i, (i < num_L)%nat ->
         nth i s 0
         = exp (ln sigma_high
                + (INR i / INR (num_L - 1))
                  * (ln sigma_low - ln sigma_high)))
      /\ last s 0 = sigma_low)
  /\ (num_L = 1%nat -> s = [sigma_high]).
Proof.
  intros [Hlo Hhl] HL s.
  assert (Hhi : 0 < sigma_high) by lra.
  assert (Hlen : length s = num_L)
    by (unfold s, sigma_levels; now rewrite length_map, linspace_length).
  destruct num_L as [|[|n]]; [lia| |].
  - assert (E : s = [sigma_high]).
    { unfold s, sigma_levels, linspace. simpl. now rewrite exp_ln. }
    rewrite E. split; [reflexivity|]. split; [|split; [reflexivity|]].
    + intros i j Hij. simpl in Hij. lia.
    + split; [lia | reflexivity].
  - assert (Hn : 0 < INR (S n)) by (apply lt_0_INR; lia).
    assert (Hln : ln sigma_low < ln sigma_high) by (apply ln_increasing; lra).
    split; [exact Hlen|]. split; [|split; [|split]].
    + intros i j Hij. rewrite Hlen in Hij. unfold s.
      rewrite !sigma_levels_nth by lia.
      apply exp_increasing.
      assert (Hij' : INR i < INR j) by (apply lt_INR; lia).
      assert (Hstep : (ln sigma_low - ln sigma_high) / INR (S n) < 0).
      { apply Rmult_neg_pos; [lra | now apply Rinv_0_lt_compat]. }
      nra.
    + unfold s. rewrite sigma_levels_nth by lia. simpl INR at 2.
      rewrite Rmult_0_r, Rplus_0_r. now apply exp_ln.
    + intros _. split.
      * intros i Hi. unfold s. rewrite sigma_levels_nth by exact Hi.
        f_equal. replace (S (S n) - 1)%nat with (S n) by lia.
        field. lra.
      * rewrite last_nth, Hlen. unfold s.
        rewrite sigma_levels_nth by lia.
        replace (S (S n) - 1)%nat with (S n) by lia.
        replace (ln sigma_high
                 + (ln sigma_low - ln sigma_high) / INR (S n) * INR (S n))
          with (ln sigma_low) by (field; lra).
        now apply exp_ln.
    + intros E. lia.
Qed.

(** ** Clipping and the save path *)

Lemma clip_within (lo hi : R) (t : Tensor) :
  lo <= hi -> values_within lo hi (clip_by_value t lo hi).
Proof.
  intros Hle. unfold values_within, clip_by_value, tmap. simpl.
  apply Forall_forall. intros v Hv. apply in_map_iff in Hv.
  destruct Hv as (u & <- & _). split.
  - apply Rmax_r.
  - apply Rmax_lub; [apply Rmin_r | exact Hle].
Qed.


Section OneImageFacts.

Context {G : Type} {RS : RandomSource G} {RL : RandomSourceLaws G}.

Lemma sample_and_save_shape (dataset_image_size : list nat) (model : Model)
    (sigmas : list R) (eps : R) (T n_images : nat) (w : World G) :
  shape_preserving model -> snapshots_possible T dataset_image_size ->
  returns (sample_and_save dataset_image_size model sigmas eps T n_images) w
    (fun x _ => shape x = n_images :: dataset_image_size /\ wf x).
Proof.
  intros Hm Hs. unfold sample_and_save.
  apply (returns_bind _ _ _
           (fun x _ => shape x = n_images :: dataset_image_size /\ wf x)).
  - apply draw_uniform_returns.
  - intros x w' [Sx Wx].
    apply (returns_for_each _ _
             (fun y _ => shape y = n_images :: dataset_image_size /\ wf y));
      [|now split].
    intros level y w'' _ [Sy Wy].
    now apply sample_and_save_level_shape.
Qed.

(** The run of [sample_and_save] cut before its last step: a schedule of
    [k + 1] levels and [T' + 1] steps per level is everything up to the
    last step, then one call of [sample_one_step], then the snapshot when
    one is due. *)
Lemma sample_and_save_last_step (dataset_image_size : list nat)
    (model : Model) (sigmas : list R) (eps : R) (T' n_images k : nat)
    (w : World G) :
  length sigmas = S k ->
  sample_and_save dataset_image_size model sigmas eps (S T') n_images w
  = bind
      (bind (draw_uniform (n_images :: dataset_image_size))
         (fun x =>
            bind (after_levels_saving model sigmas eps (S T') n_images k x)
              (for_each (range T')
                 (sample_and_save_step model
                    (repeat (Z.of_nat k) n_images)
                    (step_size eps sigmas k) k))))
      (fun y =>
         bind (sample_one_step model y (repeat (Z.of_nat k) n_images)
                 (step_size eps sigmas k))
           (fun x' =>
              if ((T' + 1) mod 10 =? 0)%nat
              then bind (save_as_grid x' (k + 1) (T' + 1)) (fun _ => ret x')
              else ret x')) w.
Proof.
  intros HL. rewrite bind_assoc. unfold sample_and_save.
  apply bind_ext. intros x w1.
  transitivity
    (after_levels_saving model sigmas eps (S T') n_images (S k) x w1).
  { unfold after_levels_saving. rewrite <- HL.
    rewrite <- (enumerate_length sigmas). now rewrite firstn_all. }
  rewrite after_levels_saving_succ by lia.
  rewrite bind_assoc. apply bind_ext. intros y w2.
  unfold sample_and_save_level, range. rewrite seq_S. cbn [Nat.add].
  rewrite for_each_app. apply bind_ext. intros z w3.
  cbn [for_each]. rewrite bind_ret_r. reflexivity.
Qed.

Lemma save_as_grid_inv (x : Tensor) (i t : nat) (u : unit) (w w' : World G) :
  save_as_grid x i t w = Ret (u, w') ->
  w' = mkWorld (rng w) (saved w ++ [(i, t, x)]) (printed w).
Proof.
  unfold save_as_grid.
  destruct (shape x) as [|? [|? [|? [|? [|? ?]]]]]; try discriminate.
  destruct (unstack x) as [ims|]; [|discriminate]. cbn [rbind].
  destruct (paste_images ims) as [[]|]; [|discriminate]. cbn [rbind].
  now intros [= _ <-].
Qed.

(** C4, amended. For [n_images = 1], any [eps], [T] and schedule, a model
    that keeps shapes and snapshots that can be written, [sample_and_save]
    returns one tensor of shape [(1, H, W, C)].  It is not clipped: when a
    step is taken, the run is everything before the last step, then the
    last call of [sample_one_step], whose output is the tensor returned,
    and it is that same tensor that [save_as_grid] is handed when a
    snapshot follows the last step; when no step is taken the tensor
    returned is the uniform draw. *)
Theorem sample_and_save_one_image (H W C : nat) (model : Model)
    (sigmas : list R) (eps : R) (T : nat) (w : World G) :
  shape_preserving model -> snapshots_possible T [H; W; C] ->
  let before_last_step k T' :=
    bind (draw_uniform [1; H; W; C]%nat)
      (fun x =>
         bind (after_levels_saving model sigmas eps T 1 k x)
           (for_each (range T')
              (fun t x =>
                 bind (sample_one_step model x [Z.of_nat k]
                         (step_size eps sigmas k))
                   (fun x' =>
                      if ((t + 1) mod 10 =? 0)%nat
                      then bind (save_as_grid x' (k + 1) (t + 1))
                             (fun _ => ret x')
                      else ret x')))) in
  returns (sample_and_save [H; W; C] model sigmas eps T 1) w
    (fun x _ => shape x = [1; H; W; C]%nat /\ wf x)
  /\ (forall k T', length sigmas = S k -> T = S T' ->
        sample_and_save [H; W; C] model sigmas eps T 1 w
        = bind (before_last_step k T')
            (fun y =>
               bind (sample_one_step model y [Z.of_nat k]
                       (step_size eps sigmas k))
                 (fun x' =>
                    if ((T' + 1) mod 10 =? 0)%nat
                    then bind (save_as_grid x' (k + 1) (T' + 1))
                           (fun _ => ret x')
                    else ret x')) w)
  /\ (forall k T', length sigmas = S k -> T = S T' ->
        returns (sample_and_save [H; W; C] model sigmas eps T 1) w
          (fun x w' => exists y w1 w2,
             before_last_step k T' w = Ret (y, w1)
             /\ sample_one_step model y [Z.of_nat k]
                  (step_size eps sigmas k) w1 = Ret (x, w2)
             /\ saved w'
                = if ((T' + 1) mod 10 =? 0)%nat
                  then saved w2 ++ [((k + 1)%nat, (T' + 1)%nat, x)]
                  else saved w2))
  /\ (sigmas = [] \/ T = 0%nat ->
        sample_and_save [H; W; C] model sigmas eps T 1 w
        = draw_uniform [1; H; W; C]%nat w).
Proof.
  intros Hm Hs before_last_step.
  assert (Hcut : forall k T', length sigmas = S k -> T = S T' ->
            sample_and_save [H; W; C] model sigmas eps T 1 w
            = bind (before_last_step k T')
                (fun y =>
                   bind (sample_one_step model y [Z.of_nat k]
                           (step_size eps sigmas k))
                     (fun x' =>
                        if ((T' + 1) mod 10 =? 0)%nat
                        then bind (save_as_grid x' (k + 1) (T' + 1))
                               (fun _ => ret x')
                        else ret x')) w).
  { intros k T' HL ->.
    exact (sample_and_save_last_step [H; W; C] model sigmas eps T' 1 k w
             HL). }
  split; [|split; [exact Hcut|split]].
  - now apply sample_and_save_shape.
  - intros k T' HL HT.
    destruct (sample_and_save_shape [H; W; C] model sigmas eps T 1 w Hm Hs)
      as (x & w' & E & _).
    exists x, w'. split; [exact E|].
    rewrite (Hcut k T' HL HT) in E. unfold bind at 1 in E.
    destruct (before_last_step k T' w) as [[y w1]|] eqn:Ey; [|discriminate].
    unfold bind at 1 in E.
    destruct (sample_one_step model y [Z.of_nat k]
                (step_size eps sigmas k) w1) as [[x' w2]|] eqn:Ex;
      [|discriminate].
    exists y, w1, w2. split; [reflexivity|].
    destruct ((T' + 1) mod 10 =? 0)%nat.
    + unfold bind in E.
      destruct (save_as_grid x' (k + 1) (T' + 1) w2) as [[u w3]|] eqn:Es;
        [|discriminate].
      injection E as <- <-. apply save_as_grid_inv in Es. subst w3.
      split; [exact Ex | reflexivity].
    + injection E as <- <-. split; [exact Ex | reflexivity].
  - intros [-> | ->]; unfold sample_and_save.
    + apply bind_ret_r.
    + transitivity (bind (draw_uniform [1; H; W; C]%nat) ret w);
        [|apply bind_ret_r].
      apply bind_ext. intros x w'. apply for_each_skip.
      intros [i sigma_i] w'' _. reflexivity.
Qed.

End OneImageFacts.

(** ** The concrete random source *)

Lemma full_wf (s : list nat) (v : R) : wf (Demo.full s v).
Proof. unfold wf, Demo.full. simpl. apply repeat_length. Qed.

Lemma Demo_laws : @RandomSourceLaws nat Demo.source.
Proof. split; intros s g; simpl; try reflexivity; apply full_wf. Qed.

Lemma unit_score_shape_preserving : shape_preserving Demo.unit_score.
Proof. intros x idx _ _. reflexivity. Qed.

(** One image of one pixel, one level, one step of size 1 on the score 1:
    the value returned is [1/2 + 1 + sqrt 2], outside [[0, 1]]. *)
Lemma sample_and_save_not_clipped :
  exists x w',
    sample_and_save (RS := Demo.source) [1; 1; 1]%nat Demo.unit_score
      [1] 1 1 1 Demo.world0
    = Ret (x, w')
    /\ shape x = [1; 1; 1; 1]%nat
    /\ ~ values_within 0 1 x.
Proof.
  eexists. eexists. split; [|split].
  - rewrite sample_and_save_single by lra.
    unfold bind, draw_uniform. simpl random_uniform. cbv iota beta.
    rewrite sample_one_step_run by reflexivity. reflexivity.
  - reflexivity.
  - unfold values_within, step_value. simpl.
    intros F. apply Forall_inv in F.
    unfold tget, Demo.unit_score, Demo.full in F. simpl in F.
    pose proof (sqrt_pos (1 * 2)). lra.
Qed.

(** ** The sliced score-matching loss on concrete inputs *)

(** C7. On the vectors [scores = (1, 1)] and [data_grads = (0, 0)] with the
    draw [v = (1, 1)], [ssm_loss] returns 1/2, the mean of the entrywise
    products, where the objective with dot products along [v] is
    [v . data_grads + 0.5 * (v . scores)^2 = 2].  The same values given as
    one image of shape [(1, 1, 1, 2)] are broadcast against the transposed
    draw of shape [(2, 1, 1, 1)] and again give 1/2; on a batch of shape
    [(2, 3)] the call raises, because [tf.transpose(v)] has shape
    [(3, 2)]. *)
Theorem ssm_loss_entrywise :
  let scores := mkTensor [2%nat] [1; 1] in
  let data_grads := mkTensor [2%nat] [0; 0] in
  let v := fst (random_normal (RandomSource := Demo.source) [2%nat] 0%nat) in
  (exists w',
     ssm_loss (RS := Demo.source) scores data_grads Demo.world0
     = Ret (1 / 2, w'))
  /\ dot v data_grads + 0.5 * Rsqr (dot v scores) = 2
  /\ (exists w',
        ssm_loss (RS := Demo.source) (Demo.full [1; 1; 1; 2]%nat 1)
          (Demo.full [1; 1; 1; 2]%nat 0) Demo.world0
        = Ret (1 / 2, w'))
  /\ ssm_loss (RS := Demo.source) (Demo.full [2; 3]%nat 1)
       (Demo.full [2; 3]%nat 0) Demo.world0 = Raise.
Proof.
  intros scores data_grads v. split; [|split; [|split]].
  - eexists. unfold ssm_loss, bind, draw_normal, lift, tf_print, ret.
    simpl random_normal. cbv iota beta. unfold bmul, badd.
    rewrite (broadcast2_same_shape Rmult (transpose _) data_grads)
      by reflexivity.
    rewrite broadcast2_same_shape by reflexivity.
    rewrite (broadcast2_same_shape Rmult (transpose _) scores)
      by reflexivity.
    rewrite broadcast2_same_shape by reflexivity.
    unfold reduce_mean, transpose, tabulate, tget, smul, tmap, Demo.full,
      scores, data_grads.
    simpl. apply (f_equal Ret).
    apply f_equal2; [unfold Rsqr; lra | reflexivity].
  - unfold v, dot, scores, data_grads. simpl. unfold Rsqr. lra.
  - eexists. unfold ssm_loss, bind, draw_normal, lift, tf_print, ret.
    simpl random_normal. cbv iota beta. unfold bmul, badd, broadcast2.
    cbn [shape transpose Demo.full rev app broadcast_shape bshape_rev
         Nat.eqb numel fold_right Nat.mul Nat.add].
    unfold tabulate. cbn [seq map].
    unfold source_index, reduce_mean, tget, transpose, smul, tmap, tabulate,
      Demo.full.
    simpl. unfold tget. simpl. apply (f_equal Ret).
    apply f_equal2; [unfold Rsqr; lra | reflexivity].
  - unfold ssm_loss, bind, draw_normal, lift. simpl random_normal.
    cbv iota beta. reflexivity.
Qed.

(** ** The theorems at concrete inputs *)

Lemma sample_one_step_update_witness :
  shape (Demo.unit_score (Demo.full [1%nat] (1 / 2)) [0%Z])
  = shape (Demo.full [1%nat] (1 / 2))
  /\ exists x_new w',
       sample_one_step (RS := Demo.source) Demo.unit_score
         (Demo.full [1%nat] (1 / 2)) [0%Z] 1 Demo.world0
       = Ret (x_new, w')
       /\ tget x_new 0 = 1 / 2 + 1 * 1 + sqrt (2 * 1) * 1.
Proof.
  split; [reflexivity|].
  destruct (sample_one_step_update (RL := Demo_laws) Demo.unit_score
              (Demo.full [1%nat] (1 / 2)) [0%Z] 1 Demo.world0 eq_refl)
    as (x & w' & E & _ & _ & _ & V).
  exists x, w'. split; [exact E|].
  apply (V 0%nat). simpl. lia.
Defined.

Lemma sample_one_step_deterministic_witness :
  match sample_one_step (RS := Demo.source) Demo.unit_score
          (Demo.full [1%nat] (1 / 2)) [0%Z] 1 Demo.world0,
        sample_one_step (RS := Demo.source) Demo.unit_score
          (Demo.full [1%nat] (1 / 2)) [0%Z] 1
          (mkWorld 7%nat [] [])
  with
  | Ret (x1, _), Ret (x2, _) => x1 = x2
  | Raise, Raise => True
  | _, _ => False
  end.
Proof.
  apply (sample_one_step_deterministic (RS := Demo.source)
           Demo.unit_score Demo.unit_score (Demo.full [1%nat] (1 / 2))
           [0%Z] 1 Demo.world0 (mkWorld 7%nat [] []));
    reflexivity.
Defined.

Lemma single_level_single_step_witness :
  1 <> 0
  /\ sample_and_save (RS := Demo.source) [1; 1; 1]%nat Demo.unit_score [1]
       (1 / 4) 1 1 Demo.world0
     = bind (draw_uniform [1; 1; 1; 1]%nat)
         (fun x0 => sample_one_step Demo.unit_score x0 [0%Z] (1 / 4))
         Demo.world0.
Proof.
  assert (N : 1 <> 0) by lra.
  split; [exact N|].
  exact (proj1 (single_level_single_step (RS := Demo.source)
                  [1; 1; 1]%nat Demo.unit_score 1 (1 / 4) 1 N)
           Demo.world0).
Defined.

Lemma annealing_levels_chain_witness :
  shape_preserving Demo.unit_score
  /\ snapshots_possible 3 [1; 1; 1]%nat
  /\ forall batch,
       after_levels (RS := Demo.source) Demo.unit_score [2; 1] (1 / 4) 3 2
         batch Demo.world0
       = bind (after_levels Demo.unit_score [2; 1] (1 / 4) 3 1 batch)
           (fun x => bind (lift (dim0 x)) (fun n =>
              langevin_steps Demo.unit_score (repeat 1%Z n)
                (1 / 4 * (nth 1 [2; 1] 0 / nth (2 - 1) [2; 1] 0) ^ 2) 3 x))
           Demo.world0.
Proof.
  assert (Hs : snapshots_possible 3 [1; 1; 1]%nat) by (left; lia).
  split; [exact unit_score_shape_preserving|]. split; [exact Hs|].
  intros batch.
  destruct (annealing_levels_chain (RL := Demo_laws) [1; 1; 1]%nat
              Demo.unit_score [2; 1] (1 / 4) 3 1
              unit_score_shape_preserving Hs) as (_ & Chain & _).
  apply (Chain 1%nat batch Demo.world0). simpl. lia.
Defined.

Lemma sample_many_batches_witness :
  (1 <= 3)%nat /\ (1 <= 2)%nat /\ shape_preserving Demo.unit_score
  /\ returns
       (sample_many (RS := Demo.source) [1; 1; 1]%nat Demo.unit_score
          [2; 1] 2 (1 / 4) 3 3) Demo.world0
       (fun r _ => exists out,
          r = Some out /\ shape out = [3; 1; 1; 1]%nat /\ wf out).
Proof.
  assert (H3 : (1 <= 3)%nat) by lia.
  assert (H2 : (1 <= 2)%nat) by lia.
  split; [exact H3|]. split; [exact H2|].
  split; [exact unit_score_shape_preserving|].
  destruct (sample_many_batches (RL := Demo_laws) [1; 1; 1]%nat
              Demo.unit_score [2; 1] 2 (1 / 4) 3 3 Demo.world0 H3 H2
              unit_score_shape_preserving)
    as (batches & _ & _ & _ & _ & _ & _ & R & _).
  exact R.
Defined.

Lemma sample_and_save_one_image_witness :
  shape_preserving Demo.unit_score
  /\ snapshots_possible 3 [2; 2; 1]%nat
  /\ returns
       (sample_and_save (RS := Demo.source) [2; 2; 1]%nat Demo.unit_score
          [2; 1] (1 / 4) 3 1) Demo.world0
       (fun x _ => shape x = [1; 2; 2; 1]%nat /\ wf x).
Proof.
  assert (Hs : snapshots_possible 3 [2; 2; 1]%nat) by (left; lia).
  split; [exact unit_score_shape_preserving|]. split; [exact Hs|].
  exact (proj1 (sample_and_save_one_image (RL := Demo_laws) 2 2 1
                  Demo.unit_score [2; 1] (1 / 4) 3 Demo.world0
                  unit_score_shape_preserving Hs)).
Defined.

Lemma sigma_levels_schedule_witness :
  0 < 1 < 2 /\ (1 <= 3)%nat
  /\ length (sigma_levels 2 1 3) = 3%nat
  /\ strictly_decreasing (sigma_levels 2 1 3)
  /\ last (sigma_levels 2 1 3) 0 = 1.
Proof.
  assert (Hs : 0 < 1 < 2) by lra.
  assert (HL : (1 <= 3)%nat) by lia.
  split; [exact Hs|]. split; [exact HL|].
  destruct (sigma_levels_schedule 2 1 3 Hs HL) as (Len & Dec & _ & F & _).
  split; [exact Len|]. split; [exact Dec|].
  apply F. lia.
Defined.

Lemma loss_per_batch_computes_witness :
  let one := mkTensor [1; 1; 1; 1]%nat [1] in
  let two := mkTensor [1; 1; 1; 1]%nat [2] in
  shape two = [1; 1; 1; 1]%nat /\ shape one = [1; 1; 1; 1]%nat
  /\ exists v, Losses.loss_per_batch 10 one two one two = Ret v.
Proof.
  intros one two. split; [reflexivity|]. split; [reflexivity|].
  eexists.
  apply (loss_per_batch_computes 10 1 1 1 1 one two one two);
    reflexivity.
Defined.

Lemma loss_per_batch_nonneg_zero_witness :
  let one := mkTensor [1; 1; 1; 1]%nat [1] in
  let two := mkTensor [1; 1; 1; 1]%nat [2] in
  (1 <= 10)%nat /\ (1 <= 1)%nat
  /\ (forall b, (b < 1)%nat -> 0 < tget two b)
  /\ exists v, Losses.loss_per_batch 10 one two one two = Ret v /\ 0 <= v.
Proof.
  intros one two.
  assert (HL : (1 <= 10)%nat) by lia.
  assert (HB : (1 <= 1)%nat) by lia.
  assert (Hp : forall b, (b < 1)%nat -> 0 < tget two b).
  { intros b Hb. destruct b; [unfold tget; simpl; lra | lia]. }
  split; [exact HL|]. split; [exact HB|]. split; [exact Hp|].
  destruct (loss_per_batch_nonneg_zero 10 1 1 1 1 one two one two
              eq_refl eq_refl eq_refl eq_refl HL HB Hp) as (v & E & P & _).
  exists v. split; [exact E | exact P].
Defined.

(** * Further properties *)

(** ** The schedule is geometric and bounded *)

Lemma sigma_levels_length (hi lo : R) (L : nat) :
  length (sigma_levels hi lo L) = L.
Proof. unfold sigma_levels. now rewrite length_map, linspace_length. Qed.

Lemma sigma_levels_one (hi lo : R) :
  0 < hi -> sigma_levels hi lo 1 = [hi].
Proof.
  intros Hhi. unfold sigma_levels, linspace. simpl. now rewrite exp_ln.
Qed.

Lemma sigma_levels_last (hi lo : R) (n : nat) :
  0 < lo -> last (sigma_levels hi lo (S (S n))) 0 = lo.
Proof.
  intros Hlo. rewrite last_nth, sigma_levels_length.
  rewrite sigma_levels_nth by lia.
  replace (S (S n) - 1)%nat with (S n) by lia.
  assert (Hn : 0 < INR (S n)) by (apply lt_0_INR; lia).
  replace (ln hi + (ln lo - ln hi) / INR (S n) * INR (S n)) with (ln lo)
    by (field; lra).
  now apply exp_ln.
Qed.

Lemma exp_le_mono (a b : R) : a <= b -> exp a <= exp b.
Proof.
  intros [H|E]; [left; now apply exp_increasing | right; now rewrite E].
Qed.

(** Every level lies between [sigma_low] and [sigma_high], and each level
    is the previous one times the same factor
    [exp((log sigma_low - log sigma_high) / (L - 1))], which is below 1. *)
Theorem sigma_levels_geometric (sigma_high sigma_low : R) (num_L : nat) :
  0 < sigma_low < sigma_high -> (1 <= num_L)%nat ->
  let s := sigma_levels sigma_high sigma_low num_L in
  let q := exp ((ln sigma_low - ln sigma_high) / INR (num_L - 1)) in
  (forall i, (i < num_L)%nat -> sigma_low <= nth i s 0 <= sigma_high)
  /\ (forall i, (S i < num_L)%nat -> nth (S i) s 0 = nth i s 0 * q)
  /\ ((2 <= num_L)%nat -> 0 < q < 1).
Proof.
  intros [Hlo Hhl] HL s q.
  assert (Hhi : 0 < sigma_high) by lra.
  destruct num_L as [|[|n]]; [lia| |].
  - unfold s. rewrite sigma_levels_one by exact Hhi.
    split; [|split]; intros; try lia.
    destruct i; [simpl; lra | lia].
  - assert (Hn : 0 < INR (S n)) by (apply lt_0_INR; lia).
    assert (Hln : ln sigma_low < ln sigma_high)
      by (apply ln_increasing; lra).
    assert (Hstep : (ln sigma_low - ln sigma_high) / INR (S n) < 0).
    { apply Rmult_neg_pos; [lra | now apply Rinv_0_lt_compat]. }
    assert (Eq : q = exp ((ln sigma_low - ln sigma_high) / INR (S n)))
      by reflexivity.
    split; [|split].
    + intros i Hi. unfold s. rewrite sigma_levels_nth by exact Hi.
      assert (Hi0 : 0 <= INR i) by apply pos_INR.
      assert (Hi1 : INR i <= INR (S n)) by (apply le_INR; lia).
      set (t := (ln sigma_low - ln sigma_high) / INR (S n)) in *.
      assert (E : t * INR (S n) = ln sigma_low - ln sigma_high)
        by (unfold t; field; lra).
      assert (Hx : ln sigma_low <= ln sigma_high + t * INR i <= ln sigma_high)
        by nra.
      pose proof (exp_le_mono _ _ (proj1 Hx)) as L1.
      pose proof (exp_le_mono _ _ (proj2 Hx)) as L2.
      rewrite (exp_ln _ Hlo) in L1. rewrite (exp_ln _ Hhi) in L2.
      exact (conj L1 L2).
    + intros i Hi. rewrite Eq. unfold s. rewrite !sigma_levels_nth by lia.
      rewrite <- exp_plus. f_equal. rewrite (S_INR i). ring.
    + intros _. rewrite Eq. split; [apply exp_pos|].
      rewrite <- exp_0. now apply exp_increasing.
Qed.

(** With the schedule of the main script the step sizes
    [alpha_i = eps * (sigma_i / sigma_{L-1})^2] go strictly down when
    [eps > 0], the last one is [eps], and for two levels or more the first
    one is [eps * (sigma_high / sigma_low)^2]. *)
Theorem step_size_along_schedule (sigma_high sigma_low eps : R)
    (num_L : nat) :
  0 < sigma_low < sigma_high -> (1 <= num_L)%nat ->
  let s := sigma_levels sigma_high sigma_low num_L in
  step_size eps s (num_L - 1) = eps
  /\ ((2 <= num_L)%nat ->
      step_size eps s 0 = eps * (sigma_high / sigma_low) ^ 2)
  /\ (0 < eps -> forall i j, (i < j < num_L)%nat ->
        step_size eps s j < step_size eps s i).
Proof.
  intros [Hlo Hhl] HL s.
  assert (Hhi : 0 < sigma_high) by lra.
  destruct num_L as [|[|n]]; [lia| |].
  - unfold s, step_size. rewrite sigma_levels_one by exact Hhi. simpl.
    split; [field; lra|]. split; intros; lia.
  - assert (Hlast : last s 0 = sigma_low)
      by (unfold s; now apply sigma_levels_last).
    assert (Hn : 0 < INR (S n)) by (apply lt_0_INR; lia).
    assert (Hln : ln sigma_low < ln sigma_high)
      by (apply ln_increasing; lra).
    unfold step_size. rewrite Hlast.
    split; [|split].
    + replace (nth (S (S n) - 1) s 0) with sigma_low; [field; lra|].
      rewrite <- Hlast at 1. unfold s.
      now rewrite last_nth, sigma_levels_length.
    + intros _. unfold s. rewrite sigma_levels_nth by lia. simpl INR at 2.
      now rewrite Rmult_0_r, Rplus_0_r, exp_ln.
    + intros He i j Hij. unfold s. rewrite !sigma_levels_nth by lia.
      set (a := exp (ln sigma_high
                     + (ln sigma_low - ln sigma_high) / INR (S n) * INR i)).
      set (b := exp (ln sigma_high
                     + (ln sigma_low - ln sigma_high) / INR (S n) * INR j)).
      assert (Hb : 0 < b) by apply exp_pos.
      assert (Hab : b < a).
      { apply exp_increasing.
        assert (INR i < INR j) by (apply lt_INR; lia).
        assert ((ln sigma_low - ln sigma_high) / INR (S n) < 0)
          by (apply Rmult_neg_pos; [lra | now apply Rinv_0_lt_compat]).
        nra. }
      assert (Hq : 0 < b / sigma_low < a / sigma_low).
      { split.
        - now apply Rdiv_lt_0_compat.
        - apply Rmult_lt_compat_r; [now apply Rinv_0_lt_compat | exact Hab]. }
      simpl. generalize dependent (b / sigma_low).
      generalize (a / sigma_low). intros v u [Hu Huv].
      assert (Hsq : u * u < v * v) by nra.
      rewrite !Rmult_1_r. now apply Rmult_lt_compat_l.
Qed.

Lemma sigma_levels_geometric_witness :
  0 < 1 < 2 /\ (1 <= 3)%nat
  /\ nth 2 (sigma_levels 2 1 3) 0
     = nth 1 (sigma_levels 2 1 3) 0 * exp ((ln 1 - ln 2) / INR (3 - 1)).
Proof.
  assert (Hs : 0 < 1 < 2) by lra.
  assert (HL : (1 <= 3)%nat) by lia.
  split; [exact Hs|]. split; [exact HL|].
  destruct (sigma_levels_geometric 2 1 3 Hs HL) as (_ & Q & _).
  apply Q. lia.
Defined.

Lemma step_size_along_schedule_witness :
  0 < 1 < 2 /\ (1 <= 3)%nat
  /\ step_size (1 / 4) (sigma_levels 2 1 3) (3 - 1) = 1 / 4.
Proof.
  assert (Hs : 0 < 1 < 2) by lra.
  assert (HL : (1 <= 3)%nat) by lia.
  split; [exact Hs|]. split; [exact HL|].
  exact (proj1 (step_size_along_schedule 2 1 (1 / 4) 3 Hs HL)).
Defined.

(** ** The alternative denoising loss *)

Lemma sumn_scale (n : nat) (c : R) (f : nat -> R) :
  sumn n (fun i => f i * c) = sumn n f * c.
Proof. induction n as [|n IH]; simpl; [ring | rewrite IH; ring]. Qed.

Lemma sumn_plus (n : nat) (f g : nat -> R) :
  sumn n (fun i => f i + g i) = sumn n f + sumn n g.
Proof. induction n as [|n IH]; simpl; [ring | rewrite IH; ring]. Qed.

Lemma sumn_zero (n : nat) : sumn n (fun _ => 0) = 0.
Proof. induction n as [|n IH]; simpl; [reflexivity | rewrite IH; ring]. Qed.

Lemma sumn_swap (n m : nat) (f : nat -> nat -> R) :
  sumn n (fun i => sumn m (fun j => f i j))
  = sumn m (fun j => sumn n (fun i => f i j)).
Proof.
  induction n as [|n IH]; simpl.
  - now rewrite sumn_zero.
  - now rewrite IH, sumn_plus.
Qed.

Lemma loss_per_batch_alternative_value (B H W C : nat)
    (score x_perturbed x sigmas : Tensor) :
  shape score = [B; H; W; C] -> shape x_perturbed = [B; H; W; C] ->
  shape x = [B; H; W; C] -> shape sigmas = [B; 1; 1; 1]%nat ->
  loss_per_batch_alternative score x_perturbed x sigmas
  = Ret (sumn B (fun b =>
           0.5 * sumn H (fun h => sumn W (fun w => sumn C (fun c =>
                   Rsqr (at4 score H W C b h w c
                         + (at4 x_perturbed H W C b h w c
                            - at4 x H W C b h w c)
                           / Rsqr (tget sigmas b)))))
           * Rsqr (tget sigmas b)) / INR B).
Proof.
  intros Ss Sp Sx Sg.
  unfold loss_per_batch_alternative, bmul, bsub, bdiv, badd.
  rewrite (broadcast2_same_shape Rminus x_perturbed x) by congruence.
  cbn [rbind]. rewrite Sp, numel4.
  rewrite (broadcast2_rows_r Rdiv _ (tmap Rsqr sigmas) B H W C)
    by (reflexivity || assumption).
  cbn [rbind].
  rewrite (broadcast2_same_shape Rplus score) by (rewrite Ss; reflexivity).
  cbn [rbind]. rewrite Ss, numel4. rewrite tmap_tabulate.
  unfold reduce_sum_keepdims, reduce_sum. cbn [fold_right rbind].
  unfold reduce_sum_axis at 1.
  cbn [shape length Nat.ltb Nat.leb nth firstn skipn app numel fold_right
       rbind].
  unfold reduce_sum_axis at 1.
  cbn [shape length Nat.ltb Nat.leb nth firstn skipn app numel fold_right
       rbind].
  unfold reduce_sum_axis at 1.
  cbn [shape length Nat.ltb Nat.leb nth firstn skipn app numel fold_right
       rbind].
  cbn [data shape enumerate length seq combine map fst snd existsb Nat.eqb
       orb].
  unfold smul. rewrite tmap_tabulate.
  rewrite broadcast2_same_shape by (cbn [shape tmap]; now rewrite Sg).
  cbn [rbind shape numel fold_right]. unfold reduce_mean. cbn [data].
  rewrite length_tabulate, fold_right_tabulate.
  replace (B * (1 * (1 * (1 * 1))))%nat with B by lia.
  rewrite !Nat.mul_1_r.
  apply f_equal. apply (f_equal (fun v => v / INR B)).
  apply sumn_ext. intros b Hb.
  rewrite tget_tabulate by exact Hb.
  rewrite tget_tmap by apply Rsqr_0.
  apply (f_equal (fun v => 0.5 * v * Rsqr (tget sigmas b))).
  apply sumn_ext. intros h Hh.
  rewrite Nat.div_1_r, Nat.mod_1_r, Nat.add_0_r, ?Nat.mul_1_r.
  rewrite tget_tabulate by nia.
  apply sumn_ext. intros w Hw.
  rewrite Nat.div_1_r, Nat.mod_1_r, Nat.add_0_r, ?Nat.mul_1_r.
  assert (Hk3 : ((b * H + h) * W + w < B * (H * W))%nat).
  { assert ((b * H + h + 1 <= B * H)%nat) by nia. nia. }
  rewrite tget_tabulate by exact Hk3.
  apply sumn_ext. intros c Hc.
  rewrite Nat.div_1_r, Nat.mod_1_r, Nat.add_0_r, ?Nat.mul_1_r.
  pose proof (offset4_bound B H W C b h w c Hb Hh Hw Hc) as Hk.
  rewrite tget_tabulate by exact Hk.
  apply f_equal.
  rewrite !tget_tabulate by exact Hk.
  rewrite tget_tmap by apply Rsqr_0.
  rewrite offset4_example by assumption.
  reflexivity.
Qed.

(** The two denoising losses differ by the factor [num_L] only: on inputs
    of one shape with sigmas that are not zero,
    [loss_per_batch_alternative = num_L * loss_per_batch]. *)
Theorem loss_alternative_scales_loss (num_L B H W C : nat)
    (score x_perturbed x sigmas : Tensor) :
  shape score = [B; H; W; C] -> shape x_perturbed = [B; H; W; C] ->
  shape x = [B; H; W; C] -> shape sigmas = [B; 1; 1; 1]%nat ->
  (1 <= num_L)%nat ->
  (forall b, (b < B)%nat -> tget sigmas b <> 0) ->
  exists v va,
    Losses.loss_per_batch num_L score x_perturbed x sigmas = Ret v
    /\ loss_per_batch_alternative score x_perturbed x sigmas = Ret va
    /\ va = INR num_L * v.
Proof.
  intros Ss Sp Sx Sg HL Hnz.
  eexists. eexists.
  split; [exact (loss_per_batch_value num_L B H W C _ _ _ _ Ss Sp Sx Sg)|].
  split;
    [exact (loss_per_batch_alternative_value B H W C _ _ _ _ Ss Sp Sx Sg)|].
  assert (HLr : INR num_L <> 0) by (apply not_0_INR; lia).
  unfold loss_spec.
  set (E := sumn B (fun b =>
              Rsqr (channel_norm H W C score x_perturbed x sigmas b))).
  transitivity (0.5 * E / INR B).
  2:{ unfold Rdiv.
      transitivity (INR num_L * / INR num_L * (0.5 * E * / INR B));
        [rewrite Rinv_r by exact HLr; ring | ring]. }
  apply (f_equal (fun v => v / INR B)).
  replace (0.5 * E) with (E * 0.5) by ring.
  unfold E. rewrite <- sumn_scale.
  apply sumn_ext. intros b Hb.
  rewrite example_energy.
  rewrite (sumn_swap C H).
  replace (sumn H (fun j => sumn C (fun i => sumn W (fun w =>
             Rsqr (residual H W C score x_perturbed x sigmas b j w i)))))
    with (sumn H (fun h => sumn W (fun w => sumn C (fun c =>
             Rsqr (residual H W C score x_perturbed x sigmas b h w c)))))
    by (apply sumn_ext; intros h _; symmetry; apply sumn_swap).
  specialize (Hnz b Hb).
  transitivity
    (sumn H (fun h => sumn W (fun w => sumn C (fun c =>
       Rsqr (at4 score H W C b h w c
             + (at4 x_perturbed H W C b h w c - at4 x H W C b h w c)
               / Rsqr (tget sigmas b)))))
     * Rsqr (tget sigmas b) * 0.5); [ring|].
  f_equal. rewrite <- sumn_scale. apply sumn_ext. intros h _.
  rewrite <- sumn_scale. apply sumn_ext. intros w _.
  rewrite <- sumn_scale. apply sumn_ext. intros c _.
  unfold residual, Rsqr. field. exact Hnz.
Qed.

Lemma reduce_sum_axis_raise (ax : nat) (t : Tensor) :
  (length (shape t) <= ax)%nat -> reduce_sum_axis ax t = Raise.
Proof.
  intros Hle. unfold reduce_sum_axis.
  destruct (Nat.ltb_spec ax (length (shape t))); [lia | reflexivity].
Qed.

(** Both losses raise on inputs of too small a rank: [loss_per_batch] takes
    a norm over axes 1 and 2 and raises below rank 3,
    [loss_per_batch_alternative] sums over axes 1, 2 and 3 and raises below
    rank 4. *)
Theorem losses_raise_on_small_rank (num_L : nat)
    (score x_perturbed x sigmas : Tensor) :
  shape x_perturbed = shape score -> shape x = shape score ->
  shape sigmas = shape score ->
  ((length (shape score) < 3)%nat ->
   Losses.loss_per_batch num_L score x_perturbed x sigmas = Raise)
  /\ ((length (shape score) < 4)%nat ->
      loss_per_batch_alternative score x_perturbed x sigmas = Raise).
Proof.
  intros Sp Sx Sg. split; intros Hr.
  - unfold Losses.loss_per_batch, bmul, bsub, bdiv, badd.
    rewrite (broadcast2_same_shape Rmult sigmas score) by congruence.
    cbn [rbind].
    rewrite (broadcast2_same_shape Rminus x_perturbed x) by congruence.
    cbn [rbind].
    rewrite broadcast2_same_shape by (cbn [shape]; congruence).
    cbn [rbind].
    rewrite broadcast2_same_shape by (cbn [shape]; congruence).
    cbn [rbind shape].
    unfold tf_norm, reduce_sum. cbn [fold_right rbind].
    rewrite (reduce_sum_axis_raise 2); [reflexivity|].
    cbn [shape tmap]. rewrite Sg. lia.
  - unfold loss_per_batch_alternative, bmul, bsub, bdiv, badd.
    rewrite (broadcast2_same_shape Rminus x_perturbed x) by congruence.
    cbn [rbind].
    rewrite broadcast2_same_shape by (cbn [shape tmap]; congruence).
    cbn [rbind].
    rewrite broadcast2_same_shape by (cbn [shape]; congruence).
    cbn [rbind shape].
    unfold reduce_sum_keepdims, reduce_sum. cbn [fold_right rbind].
    rewrite (reduce_sum_axis_raise 3); [reflexivity|].
    cbn [shape tmap]. lia.
Qed.

(** ** Edge cases of the sampler *)

Lemma tabulate_nth (l : list R) :
  tabulate (length l) (fun k => nth k l 0) = l.
Proof.
  unfold tabulate. induction l as [|a l IH]; [reflexivity|].
  simpl. f_equal. rewrite <- seq_shift, map_map. exact IH.
Qed.

Lemma step_value_zero (x score z : Tensor) :
  wf x -> step_value x score z 0 = x.
Proof.
  intros Wx. unfold step_value. destruct x as [s d]. unfold wf in Wx.
  simpl in *. f_equal. rewrite <- Wx.
  rewrite <- (tabulate_nth d) at 2. apply tabulate_ext. intros k _.
  unfold tget. simpl. rewrite !Rmult_0_l, sqrt_0. ring.
Qed.

Section EdgeFacts.

Context {G : Type} {RS : RandomSource G}.

(** With [T = 0], and with an empty schedule, [sample_and_save] is the
    uniform draw and nothing else: no normal draw, no model call, no
    snapshot. *)
Theorem sample_and_save_no_step (dataset_image_size : list nat)
    (model : Model) (sigmas : list R) (eps : R) (T n_images : nat)
    (w : World G) :
  sample_and_save dataset_image_size model sigmas eps 0 n_images w
  = draw_uniform (n_images :: dataset_image_size) w
  /\ sample_and_save dataset_image_size model [] eps T n_images w
     = draw_uniform (n_images :: dataset_image_size) w.
Proof.
  split.
  - unfold sample_and_save.
    transitivity (bind (draw_uniform (n_images :: dataset_image_size))
                    ret w); [|apply bind_ret_r].
    apply bind_ext.
    intros x w'. apply for_each_skip. intros [i sigma_i] w'' _.
    reflexivity.
  - unfold sample_and_save. apply bind_ret_r.
Qed.

(** [sample_many] raises when [n_images] or [batch_size] is 0: the batch
    size it hands to [Dataset.batch] is then 0. *)
Theorem sample_many_raises_on_zero (dataset_image_size : list nat)
    (model : Model) (sigmas : list R) (batch_size : nat) (eps : R)
    (T n_images : nat) (w : World G) :
  Nat.min batch_size n_images = 0%nat ->
  sample_many dataset_image_size model sigmas batch_size eps T n_images w
  = Raise.
Proof.
  intros Hz. unfold sample_many, bind, draw_uniform, lift. rewrite Hz.
  destruct (random_uniform (n_images :: dataset_image_size) (rng w))
    as [x g].
  unfold dataset_batch. destruct (shape x); reflexivity.
Qed.

Context {RL : RandomSourceLaws G}.

(** A step of size 0 leaves the state as it is. *)
Lemma sample_one_step_zero (model : Model) (x : Tensor) (idx : list Z)
    (w : World G) :
  wf x -> shape (model x idx) = shape x ->
  returns (sample_one_step model x idx 0) w
    (fun y w' => y = x /\ saved w' = saved w).
Proof.
  intros Wx Hs. eexists. eexists. split.
  - apply sample_one_step_run; [exact Hs | apply normal_shape].
  - split; [now apply step_value_zero | reflexivity].
Qed.

(** The snapshot after a step, when it can be written, hands the state
    on. *)
Lemma snapshot_hands_on (x : Tensor) (i t T n : nat) (hwc : list nat)
    (w : World G) :
  snapshots_possible T hwc -> (t < T)%nat -> shape x = n :: hwc ->
  returns
    (if ((t + 1) mod 10 =? 0)%nat
     then bind (save_as_grid x (i + 1) (t + 1)) (fun _ => ret x)
     else ret x) w
    (fun y _ => y = x).
Proof.
  intros [HT | (H & W & C & -> & _ & _ & HC)] Ht Sx.
  - rewrite (no_snapshot_due T t HT Ht). now apply returns_ret.
  - destruct ((t + 1) mod 10 =? 0)%nat; [|now apply returns_ret].
    apply (returns_bind _ _ _ (fun _ _ => True)).
    + eexists. eexists.
      split; [now apply (save_as_grid_run x n H W C) | exact I].
    + intros _ w3 _. now apply returns_ret.
Qed.

(** With [eps = 0] every step size is 0 and the sampler hands back the
    uniform noise it started from, whatever [T] and the model, as long as
    it keeps shapes, the snapshots can be written and the schedule does
    not end with a level 0, by which [sigma_i / sigmas[-1]] would
    divide. *)
Theorem sample_and_save_zero_eps (dataset_image_size : list nat)
    (model : Model) (sigmas : list R) (T n_images : nat) (w : World G) :
  shape_preserving model -> snapshots_possible T dataset_image_size ->
  sigmas = [] \/ last sigmas 0 <> 0 ->
  returns (sample_and_save dataset_image_size model sigmas 0 T n_images) w
    (fun x _ =>
       x = fst (random_uniform (n_images :: dataset_image_size) (rng w))).
Proof.
  intros Hm Hs _. unfold sample_and_save.
  set (x0 := fst (random_uniform (n_images :: dataset_image_size) (rng w))).
  assert (S0 : shape x0 = n_images :: dataset_image_size)
    by apply uniform_shape.
  assert (W0 : wf x0) by apply uniform_wf.
  apply (returns_bind _ _ _ (fun x _ => x = x0)).
  - unfold returns, draw_uniform, x0.
    destruct (random_uniform (n_images :: dataset_image_size) (rng w)).
    eexists. eexists. split; reflexivity.
  - intros x w' ->.
    apply (returns_for_each _ _ (fun y _ => y = x0)); [|reflexivity].
    intros [i sigma_i] y w1 _ ->. unfold sample_and_save_level.
    rewrite Rmult_0_l.
    apply (returns_for_each _ _ (fun y _ => y = x0)); [|reflexivity].
    intros t y w2 Ht ->. apply in_seq in Ht. unfold sample_and_save_step.
    apply (returns_bind _ _ _ (fun y _ => y = x0)).
    + eapply returns_weaken.
      * apply sample_one_step_zero; [exact W0|].
        apply Hm; [exact W0|]. unfold dim0.
        now rewrite S0, repeat_length.
      * intros y _ [-> _]. reflexivity.
    + intros y w3 ->.
      apply (snapshot_hands_on x0 i t T n_images dataset_image_size);
        [exact Hs | lia | exact S0].
Qed.

End EdgeFacts.

(** ** Cutting into batches and putting them back *)

Lemma firstn_plus {A : Type} (a c : nat) (l : list A) :
  firstn (a + c) l = firstn a l ++ firstn c (skipn a l).
Proof.
  revert l. induction a as [|a IH]; intros l; [reflexivity|].
  destruct l as [|x l]; simpl.
  - now rewrite firstn_nil.
  - f_equal. apply IH.
Qed.

Lemma concat0_slices (x : Tensor) (n a c : nat) (s : list nat) :
  shape x = n :: s ->
  concat0 (slice_rows 0 a x) (slice_rows a c x)
  = Ret (slice_rows 0 (a + c) x).
Proof.
  intros Sx. unfold concat0, slice_rows. rewrite Sx. cbn [shape tl data].
  destruct (list_eq_dec Nat.eq_dec s s) as [_|N]; [|congruence].
  f_equal. f_equal. cbn [Nat.mul skipn].
  rewrite Nat.mul_add_distr_r. symmetry. apply firstn_plus.
Qed.

Lemma slice_rows_all (x : Tensor) (n : nat) (s : list nat) :
  shape x = n :: s -> wf x -> slice_rows 0 n x = x.
Proof.
  intros Sx Wx. destruct x as [sx d]. unfold wf, slice_rows in *.
  simpl in *. subst sx. simpl in *. f_equal.
  apply firstn_all2. lia.
Qed.

Section RoundTripFacts.

Context {G : Type} {RS : RandomSource G}.

Variables (model : Model) (sigmas : list R) (eps : R) (T : nat).
Variables (x0 : Tensor) (n b : nat) (s : list nat).
Hypothesis shape_x0 : shape x0 = n :: s.
Hypothesis b_pos : (1 <= b)%nat.

(** The per-batch loop changes nothing. *)
Hypothesis idle : forall batch (w : World G),
  shape batch <> [] ->
  sample_many_batch model sigmas eps T batch w = Ret (batch, w).

Lemma idle_iteration_first (cnt c : nat) (w : World G) :
  sample_many_iteration model sigmas b eps T (slice_rows 0 cnt x0) (None, c)
    w
  = Ret ((Some (slice_rows 0 cnt x0), (c + b)%nat), w).
Proof.
  unfold sample_many_iteration, bind.
  rewrite idle by (unfold slice_rows; simpl; discriminate).
  reflexivity.
Qed.

Lemma idle_iteration_next (a cnt c : nat) (w : World G) :
  sample_many_iteration model sigmas b eps T (slice_rows a cnt x0)
    (Some (slice_rows 0 a x0), c) w
  = Ret ((Some (slice_rows 0 (a + cnt) x0), (c + b)%nat), w).
Proof.
  unfold sample_many_iteration, bind.
  rewrite idle by (unfold slice_rows; simpl; discriminate).
  unfold lift. rewrite (concat0_slices x0 n a cnt s shape_x0).
  reflexivity.
Qed.

Lemma idle_batches (k : nat) (w : World G) :
  (k < (n + b - 1) / b)%nat ->
  for_each
    (map (fun j => slice_rows (j * b) (Nat.min b (n - j * b)) x0)
       (seq 0 (S k)))
    (sample_many_iteration model sigmas b eps T) (None, 0%nat) w
  = Ret ((Some (slice_rows 0 (Nat.min (S k * b) n) x0), (S k * b)%nat), w).
Proof.
  induction k as [|k IH]; intros Hk.
  - cbn [seq map for_each]. rewrite Nat.mul_0_l, Nat.sub_0_r.
    unfold bind. rewrite idle_iteration_first.
    unfold ret. now rewrite Nat.mul_1_l, Nat.add_0_l.
  - rewrite seq_S, map_app, for_each_app. unfold bind at 1.
    rewrite IH by lia. cbn [map for_each Nat.add].
    pose proof (batch_start_inside n b (S k) b_pos Hk) as Hin.
    replace (Nat.min (S k * b) n) with (S k * b)%nat by lia.
    unfold bind. rewrite idle_iteration_next. unfold ret.
    replace (S k * b + Nat.min b (n - S k * b))%nat
      with (Nat.min (S (S k) * b) n) by lia.
    replace (S k * b + b)%nat with (S (S k) * b)%nat by lia.
    reflexivity.
Qed.

End RoundTripFacts.

Section RoundTripTheorems.

Context {G : Type} {RS : RandomSource G} {RL : RandomSourceLaws G}.

(** With [T = 0], and with an empty schedule, [sample_many] returns the
    uniform noise itself: cutting it into batches of any size and
    concatenating the batches gives the tensor back. *)
Theorem sample_many_no_step (dataset_image_size : list nat) (model : Model)
    (sigmas : list R) (batch_size : nat) (eps : R) (T n_images : nat)
    (w : World G) :
  (1 <= n_images)%nat -> (1 <= batch_size)%nat ->
  T = 0%nat \/ sigmas = [] ->
  sample_many dataset_image_size model sigmas batch_size eps T n_images w
  = bind (draw_uniform (n_images :: dataset_image_size))
      (fun x => ret (Some x)) w.
Proof.
  intros Hn Hb Hidle.
  assert (Idle : forall batch (w' : World G), shape batch <> [] ->
            sample_many_batch model sigmas eps T batch w' = Ret (batch, w')).
  { intros batch w' Hs. unfold sample_many_batch.
    destruct Hidle as [-> | ->]; [|reflexivity].
    apply for_each_skip. intros [i sigma_i] w'' _.
    unfold sample_many_level, bind, lift, dim0.
    destruct (shape batch); [congruence | reflexivity]. }
  unfold sample_many, bind at 1 4, draw_uniform.
  pose proof (uniform_shape (n_images :: dataset_image_size) (rng w)) as Sx.
  pose proof (uniform_wf (n_images :: dataset_image_size) (rng w)) as Wx.
  destruct (random_uniform (n_images :: dataset_image_size) (rng w))
    as [x0 g]. simpl in Sx, Wx.
  set (b := Nat.min batch_size n_images).
  assert (Hb' : (1 <= b)%nat) by (unfold b; lia).
  unfold bind at 1, lift.
  rewrite (dataset_batch_run b n_images dataset_image_size x0 Sx Hb').
  assert (Hc := batch_count_covers n_images b Hb').
  assert (Hcount : (1 <= (n_images + b - 1) / b)%nat)
    by (apply Nat.div_le_lower_bound; lia).
  destruct ((n_images + b - 1) / b)%nat as [|k] eqn:Ek; [lia|].
  unfold bind.
  rewrite (idle_batches model sigmas eps T x0 n_images b
             dataset_image_size Sx Hb' Idle k) by (rewrite Ek; lia).
  cbn [ret fst].
  replace (Nat.min (S k * b) n_images) with n_images by lia.
  now rewrite (slice_rows_all x0 n_images dataset_image_size Sx Wx).
Qed.

End RoundTripTheorems.

(** ** [sample_many] against [sample_and_save] *)

Section AgreementFacts.

Context {G : Type} {RS : RandomSource G} {RL : RandomSourceLaws G}.

Lemma for_each_ext_inv {A S : Type} (I : S -> Prop) (l : list A)
    (b1 b2 : A -> S -> M G S) (s : S) (w : World G) :
  (forall a s' w', In a l -> I s' -> b1 a s' w' = b2 a s' w') ->
  (forall a s' w' s'' w'', In a l -> I s' ->
     b1 a s' w' = Ret (s'', w'') -> I s'') ->
  I s -> for_each l b1 s w = for_each l b2 s w.
Proof.
  revert s w. induction l as [|a l IH]; intros s w E P i; simpl; auto.
  unfold bind. rewrite <- E by (auto; now left).
  destruct (b1 a s w) as [[s' w']|] eqn:Eb; [|reflexivity].
  apply IH.
  - intros. apply E; [now right | assumption].
  - intros a' y w1 y' w2 Hin. apply P. now right.
  - apply (P a s w s' w'); [now left | exact i | exact Eb].
Qed.

(** When the batch size is at least [n_images], [sample_many] runs its
    loop over the levels once, on the whole uniform tensor. *)
Lemma sample_many_single_batch (dataset_image_size : list nat)
    (model : Model) (sigmas : list R) (batch_size : nat) (eps : R)
    (T n_images : nat) (w : World G) :
  (1 <= n_images <= batch_size)%nat ->
  sample_many dataset_image_size model sigmas batch_size eps T n_images w
  = bind (draw_uniform (n_images :: dataset_image_size))
      (fun x0 => bind (sample_many_batch model sigmas eps T x0)
                   (fun y => ret (Some y))) w.
Proof.
  intros Hn. unfold sample_many.
  replace (Nat.min batch_size n_images) with n_images by lia.
  unfold bind at 1 4, draw_uniform.
  pose proof (uniform_shape (n_images :: dataset_image_size) (rng w)) as Sx.
  pose proof (uniform_wf (n_images :: dataset_image_size) (rng w)) as Wx.
  destruct (random_uniform (n_images :: dataset_image_size) (rng w))
    as [x0 g]. simpl in Sx, Wx.
  unfold bind at 1, lift.
  rewrite (dataset_batch_run n_images n_images dataset_image_size x0 Sx)
    by lia.
  replace ((n_images + n_images - 1) / n_images)%nat with 1%nat
    by (apply (Nat.div_unique _ _ _ (n_images - 1)); lia).
  cbn [seq map for_each].
  rewrite Nat.mul_0_l, Nat.sub_0_r, Nat.min_id.
  rewrite (slice_rows_all x0 n_images dataset_image_size Sx Wx).
  unfold sample_many_iteration, bind, ret.
  destruct (sample_many_batch model sigmas eps T x0 _) as [[y w']|];
    reflexivity.
Qed.

(** With fewer than 10 steps per level (so that no snapshot is due), a
    batch size of at least [n_images] and a model that keeps shapes,
    [sample_many] is [sample_and_save]: the same draws in the same order,
    the same tensor, the same final world. *)
Theorem sample_many_is_sample_and_save (dataset_image_size : list nat)
    (model : Model) (sigmas : list R) (batch_size : nat) (eps : R)
    (T n_images : nat) (w : World G) :
  (1 <= n_images <= batch_size)%nat -> (T < 10)%nat ->
  shape_preserving model ->
  sample_many dataset_image_size model sigmas batch_size eps T n_images w
  = bind (sample_and_save dataset_image_size model sigmas eps T n_images)
      (fun x => ret (Some x)) w.
Proof.
  intros Hn HT Hm. rewrite sample_many_single_batch by exact Hn.
  unfold sample_and_save. rewrite bind_assoc.
  unfold bind at 1 3, draw_uniform.
  pose proof (uniform_shape (n_images :: dataset_image_size) (rng w)) as Sx.
  pose proof (uniform_wf (n_images :: dataset_image_size) (rng w)) as Wx.
  destruct (random_uniform (n_images :: dataset_image_size) (rng w))
    as [x0 g]. simpl in Sx, Wx.
  unfold bind. unfold sample_many_batch.
  rewrite (for_each_ext_inv
             (fun y => shape y = n_images :: dataset_image_size /\ wf y)
             (enumerate sigmas)
             (sample_many_level model sigmas eps T)
             (sample_and_save_level model sigmas eps T n_images));
    [reflexivity | | | now split].
  - intros [i sigma_i] y w' _ [Sy Wy].
    unfold sample_many_level, sample_and_save_level, bind, lift, dim0.
    rewrite Sy. apply for_each_ext. intros t y' w'' Ht.
    unfold sample_and_save_step. apply in_seq in Ht.
    replace ((t + 1) mod 10 =? 0)%nat with false.
    + symmetry. apply bind_ret_r.
    + symmetry. apply Nat.eqb_neq. rewrite Nat.mod_small; lia.
  - intros level y w' y' w'' _ [Sy Wy] E.
    destruct (sample_many_level_shape model sigmas eps T level y w' Hm Wy)
      as (z & w3 & E' & Sz & Wz).
    + rewrite Sy. discriminate.
    + rewrite E in E'. injection E' as -> _. split; [congruence | exact Wz].
Qed.

End AgreementFacts.

(** ** The snapshots of [sample_and_save] *)

Lemma snapshot_names_succ (i T : nat) :
  snapshot_names i (S T)
  = snapshot_names i T
    ++ (if ((T + 1) mod 10 =? 0)%nat then [((i + 1)%nat, (T + 1)%nat)]
        else []).
Proof.
  unfold snapshot_names.
  pose proof (Nat.div_mod_eq T 10) as E1.
  pose proof (Nat.mod_upper_bound T 10) as U1.
  pose proof (Nat.div_mod_eq (T + 1) 10) as E2.
  pose proof (Nat.mod_upper_bound (T + 1) 10) as U2.
  replace (S T) with (T + 1)%nat by lia.
  destruct (Nat.eqb_spec ((T + 1) mod 10) 0) as [Z|NZ].
  - replace ((T + 1) / 10)%nat with (S (T / 10)) by lia.
    rewrite seq_S, map_app. cbn [map Nat.add]. do 3 f_equal. lia.
  - replace ((T + 1) / 10)%nat with (T / 10)%nat by lia.
    now rewrite app_nil_r.
Qed.

Section SnapshotFacts.

Context {G : Type} {RS : RandomSource G} {RL : RandomSourceLaws G}.

Variables (model : Model) (n_images : nat) (dataset_image_size : list nat).
Hypothesis model_ok : shape_preserving model.

Lemma adds_snapshots_nil (w : World G) (y : Tensor) :
  shape y = n_images :: dataset_image_size -> wf y ->
  adds_snapshots (n_images :: dataset_image_size) w [] y w.
Proof.
  intros Sy Wy. split; [now split|]. split; [reflexivity|].
  exists []. now rewrite app_nil_r.
Qed.

Lemma adds_snapshots_app (w w1 w2 : World G) (n1 n2 : list (nat * nat))
    (y1 y2 : Tensor) :
  adds_snapshots (n_images :: dataset_image_size) w n1 y1 w1 ->
  adds_snapshots (n_images :: dataset_image_size) w1 n2 y2 w2 ->
  adds_snapshots (n_images :: dataset_image_size) w (n1 ++ n2) y2 w2.
Proof.
  intros (_ & P1 & a1 & E1 & N1 & F1) (S2 & P2 & a2 & E2 & N2 & F2).
  split; [exact S2|]. split; [congruence|].
  exists (a1 ++ a2). split; [|split].
  - now rewrite E2, E1, app_assoc.
  - now rewrite map_app, N1, N2.
  - apply Forall_app. now split.
Qed.

Variable T : nat.
Hypothesis can_save : snapshots_possible T dataset_image_size.

Lemma sample_and_save_step_adds (idx : list Z) (alpha : R) (i t : nat)
    (x : Tensor) (w : World G) :
  (t < T)%nat ->
  shape x = n_images :: dataset_image_size -> wf x ->
  length idx = n_images ->
  returns (sample_and_save_step model idx alpha i t x) w
    (adds_snapshots (n_images :: dataset_image_size) w
       (if ((t + 1) mod 10 =? 0)%nat then [((i + 1)%nat, (t + 1)%nat)]
        else [])).
Proof.
  intros Ht Sx Wx Hl. unfold sample_and_save_step.
  assert (Hd : dim0 x = Ret (length idx))
    by (unfold dim0; now rewrite Sx, Hl).
  destruct (sample_one_step_shape model x idx alpha w (model_ok x idx Wx Hd))
    as (y & w' & E & Sy & Wy & Sv).
  assert (Pw : printed w' = printed w).
  { rewrite sample_one_step_run in E
      by (try apply normal_shape; now apply model_ok).
    now injection E as _ <-. }
  assert (Hno : returns (ret y) w'
                  (adds_snapshots (n_images :: dataset_image_size) w [])).
  { apply returns_ret. split; [split; [congruence | exact Wy]|].
    split; [exact Pw|].
    exists []. rewrite app_nil_r. repeat split; [exact Sv | constructor]. }
  apply (returns_bind _ _ _ (fun a w1 => a = y /\ w1 = w')).
  { exists y, w'. now split. }
  intros a w1 [-> ->].
  destruct can_save as [HT | (H & W & C & Ed & _ & _ & HC)].
  - rewrite (no_snapshot_due T t HT Ht). exact Hno.
  - destruct ((t + 1) mod 10 =? 0)%nat; [|exact Hno].
    exists y. unfold bind.
    rewrite (save_as_grid_run y n_images H W C) by congruence.
    eexists. split; [reflexivity|]. split; [split; [congruence | exact Wy]|].
    split; [exact Pw|].
    exists [((i + 1)%nat, (t + 1)%nat, y)]. cbn [saved].
    split; [now rewrite Sv|]. split; [reflexivity|].
    constructor; [simpl; congruence | constructor].
Qed.

Lemma sample_and_save_steps_add (idx : list Z) (alpha : R) (i T' : nat)
    (x : Tensor) (w : World G) :
  (T' <= T)%nat ->
  shape x = n_images :: dataset_image_size -> wf x ->
  length idx = n_images ->
  returns (for_each (range T') (sample_and_save_step model idx alpha i) x) w
    (adds_snapshots (n_images :: dataset_image_size) w
       (snapshot_names i T')).
Proof.
  intros HT Sx Wx Hl. induction T' as [|T' IH].
  - apply returns_ret. now apply adds_snapshots_nil.
  - unfold range in *. rewrite seq_S. cbn [Nat.add].
    eapply returns_eq; [apply for_each_app|].
    eapply returns_bind; [apply IH; lia|].
    intros y w1 A1. cbn [for_each].
    eapply returns_eq; [apply bind_ret_r|].
    destruct A1 as ((Sy & Wy) & A1').
    eapply returns_weaken.
    + apply sample_and_save_step_adds; [lia | assumption..].
    + intros z w2 A2. rewrite snapshot_names_succ.
      eapply adds_snapshots_app; [|exact A2].
      exact (conj (conj Sy Wy) A1').
Qed.

Lemma after_levels_saving_adds (sigmas : list R) (eps : R) (k : nat)
    (x : Tensor) (w : World G) :
  (k <= length sigmas)%nat ->
  shape x = n_images :: dataset_image_size -> wf x ->
  returns (after_levels_saving model sigmas eps T n_images k x) w
    (adds_snapshots (n_images :: dataset_image_size) w
       (flat_map (fun i => snapshot_names i T) (seq 0 k))).
Proof.
  intros Hk Sx Wx. induction k as [|k IH].
  - apply returns_ret. now apply adds_snapshots_nil.
  - eapply returns_eq; [apply after_levels_saving_succ; lia|].
    eapply returns_bind; [apply IH; lia|].
    intros y w1 A1. destruct A1 as ((Sy & Wy) & A1').
    unfold sample_and_save_level.
    eapply returns_weaken.
    + apply sample_and_save_steps_add;
        [apply le_n | exact Sy | exact Wy | apply repeat_length].
    + intros z w2 A2. rewrite seq_S, flat_map_app. cbn [Nat.add flat_map].
      rewrite app_nil_r.
      eapply adds_snapshots_app; [|exact A2].
      exact (conj (conj Sy Wy) A1').
Qed.

End SnapshotFacts.

Section SnapshotTheorem.

Context {G : Type} {RS : RandomSource G} {RL : RandomSourceLaws G}.

(** With a model that keeps shapes and, when a snapshot is due
    ([T >= 10]), images that [save_as_grid] can write (rank 3, at least one
    pixel, 1, 3 or 4 channels), [sample_and_save] writes one snapshot after
    every tenth step of every level and nothing else: for a schedule of [L]
    levels the files are [sigma{i}_t{t}] for [i = 1 .. L] and
    [t = 10, 20, .. <= T], in that order, each holding a tensor of the full
    shape [(n_images, ...)]; nothing is printed.  With [T < 10] no file is
    written. *)
Theorem sample_and_save_snapshots (dataset_image_size : list nat)
    (model : Model) (sigmas : list R) (eps : R) (T n_images : nat)
    (w : World G) :
  shape_preserving model -> snapshots_possible T dataset_image_size ->
  returns (sample_and_save dataset_image_size model sigmas eps T n_images) w
    (fun _ w' =>
       printed w' = printed w
       /\ exists added,
            saved w' = saved w ++ added
            /\ map fst added
               = flat_map (fun i => snapshot_names i T)
                   (seq 0 (length sigmas))
            /\ length added = (length sigmas * (T / 10))%nat
            /\ Forall
                 (fun e => shape (snd e) = n_images :: dataset_image_size)
                 added).
Proof.
  intros Hm Hs. unfold sample_and_save.
  apply (returns_bind _ _ _
           (fun x w1 => shape x = n_images :: dataset_image_size /\ wf x
                        /\ saved w1 = saved w /\ printed w1 = printed w)).
  - unfold returns, draw_uniform.
    pose proof (uniform_shape (n_images :: dataset_image_size) (rng w)).
    pose proof (uniform_wf (n_images :: dataset_image_size) (rng w)).
    destruct (random_uniform (n_images :: dataset_image_size) (rng w)).
    eexists. eexists. split; [reflexivity|]. now repeat split.
  - intros x w1 (Sx & Wx & Sv & Pr).
    eapply returns_weaken.
    + eapply returns_eq;
        [|apply (after_levels_saving_adds model n_images
                   dataset_image_size Hm T Hs sigmas eps (length sigmas) x
                   w1 (le_n _) Sx Wx)].
      unfold after_levels_saving.
      rewrite <- (enumerate_length sigmas). now rewrite firstn_all.
    + intros y w2 (_ & P2 & added & E & N & F).
      split; [congruence|]. exists added.
      split; [congruence|]. split; [exact N|]. split; [|exact F].
      rewrite <- (length_map fst), N.
      clear. induction (length sigmas) as [|k IH]; [reflexivity|].
      rewrite seq_S, flat_map_app, length_app, IH. cbn [flat_map].
      rewrite app_nil_r. unfold snapshot_names.
      rewrite length_map, length_seq. lia.
Qed.

End SnapshotTheorem.

Section SnapshotErrors.

Context {G : Type} {RS : RandomSource G} {RL : RandomSourceLaws G}.

Lemma bind_Raise {A B : Type} (c : M G A) (k : A -> M G B) (w : World G) :
  c w = Raise -> bind c k w = Raise.
Proof. intros E. unfold bind. now rewrite E. Qed.

Lemma save_as_grid_raises (x : Tensor) (n i t : nat) (hwc : list nat)
    (w : World G) :
  shape x = n :: hwc -> snapshot_raises n hwc ->
  save_as_grid x i t w = Raise.
Proof.
  intros Sx [Hr | (Hn & H & W & C & -> & HC)]; unfold save_as_grid.
  - rewrite Sx. destruct hwc as [|a [|b [|c [|d l]]]]; try reflexivity.
    now contradiction Hr.
  - unfold unstack. rewrite Sx. cbn [rbind].
    destruct n as [|n]; [lia|]. cbn [seq map paste_images].
    unfold array_to_img at 1. cbn [shape].
    destruct (Nat.eqb_spec C 1) as [->|_]; [contradiction HC; now left|].
    destruct (Nat.eqb_spec C 3) as [->|_];
      [contradiction HC; right; now left|].
    destruct (Nat.eqb_spec C 4) as [->|_];
      [contradiction HC; right; now right|].
    reflexivity.
Qed.

(** When [T >= 10] and the schedule is not empty, [sample_and_save] raises
    at its first snapshot, after the tenth step of the first level, if the
    dataset's images are not of rank 3 or if there is at least one image
    and the channels are not 1, 3 or 4: the call returns nothing. *)
Theorem sample_and_save_raises_at_snapshot (dataset_image_size : list nat)
    (model : Model) (sigmas : list R) (eps : R) (T n_images : nat)
    (w : World G) :
  shape_preserving model -> sigmas <> [] -> (10 <= T)%nat ->
  snapshot_raises n_images dataset_image_size ->
  sample_and_save dataset_image_size model sigmas eps T n_images w = Raise.
Proof.
  intros Hm Hne HT Hbad. unfold sample_and_save.
  destruct (draw_uniform_returns (n_images :: dataset_image_size) w)
    as (x0 & w1 & E0 & S0 & W0).
  rewrite (bind_Ret _ _ _ _ _ E0).
  destruct sigmas as [|s0 rest] eqn:Es; [congruence|]. rewrite <- Es.
  assert (En : enumerate sigmas
               = (0%nat, s0) :: combine (seq 1 (length rest)) rest)
    by (rewrite Es; reflexivity).
  rewrite En. cbn [for_each]. apply bind_Raise.
  unfold sample_and_save_level.
  set (idx := repeat (Z.of_nat 0) n_images).
  set (alpha := eps * (s0 / last sigmas 0) ^ 2).
  assert (ER : range T = range 9 ++ 9%nat :: seq 10 (T - 10)).
  { unfold range. replace T with (9 + S (T - 10))%nat at 1 by lia.
    now rewrite seq_app. }
  rewrite ER, for_each_app.
  assert (H9 : snapshots_possible 9 dataset_image_size) by (left; lia).
  destruct (sample_and_save_level_shape model sigmas eps 9 n_images
              dataset_image_size (0%nat, s0) x0 w1 Hm H9 S0 W0)
    as (y & w2 & Ey & Sy & Wy).
  unfold sample_and_save_level in Ey. fold idx alpha in Ey.
  rewrite (bind_Ret _ _ _ _ _ Ey). cbn [for_each]. apply bind_Raise.
  unfold sample_and_save_step.
  assert (Hd : dim0 y = Ret (length idx))
    by (unfold dim0, idx; now rewrite Sy, repeat_length).
  destruct (sample_one_step_shape model y idx alpha w2 (Hm y idx Wy Hd))
    as (y' & w3 & Ey' & Sy' & _).
  rewrite (bind_Ret _ _ _ _ _ Ey').
  change ((9 + 1) mod 10 =? 0)%nat with true. cbv iota.
  apply bind_Raise.
  apply (save_as_grid_raises y' n_images _ _ dataset_image_size);
    [congruence | exact Hbad].
Qed.

End SnapshotErrors.

(** ** The grid of [save_as_grid] *)

Lemma sqrt_rows_pos (n : nat) : (1 <= n)%nat -> (1 <= Nat.sqrt n)%nat.
Proof.
  intros Hn. rewrite <- Nat.sqrt_1. now apply Nat.sqrt_le_mono.
Qed.

(** Square images of side [d]: the first [rows * cols] images are pasted
    inside the canvas, a margin of [spacing] away from its left and top
    edges, and any two images are [spacing] apart, the later one further
    right or, in the same column of the canvas, further down. *)
Theorem grid_square_images_fit (n_images d spacing : nat) :
  (1 <= n_images)%nat ->
  let rows := Nat.sqrt n_images in
  let cols := (n_images / rows)%nat in
  let canvas := grid_canvas n_images d d spacing in
  let at_ i := grid_paste n_images d d spacing i in
  (forall i, (i < rows * cols)%nat ->
     (spacing <= fst (at_ i) /\ fst (at_ i) + d + spacing <= fst canvas)%nat
     /\ (spacing <= snd (at_ i)
         /\ snd (at_ i) + d + spacing <= snd canvas)%nat)
  /\ (forall i j, (i < j)%nat ->
        (fst (at_ i) + d + spacing <= fst (at_ j))%nat
        \/ (fst (at_ i) = fst (at_ j)
            /\ snd (at_ i) + d + spacing <= snd (at_ j))%nat).
Proof.
  intros Hn rows cols canvas at_.
  assert (Hr : (1 <= rows)%nat) by now apply sqrt_rows_pos.
  unfold canvas, at_, grid_canvas, grid_paste. fold rows. fold cols.
  cbn [fst snd]. split.
  - intros i Hi.
    assert (Hrow : (i / rows < cols)%nat)
      by (apply Nat.Div0.div_lt_upper_bound; lia).
    assert (Hcol : (i mod rows < rows)%nat)
      by (apply Nat.mod_upper_bound; lia).
    set (row := (i / rows)%nat) in *. set (col := (i mod rows)%nat) in *.
    repeat split; nia.
  - intros i j Hij.
    pose proof (Nat.div_mod_eq i rows) as Ei.
    pose proof (Nat.div_mod_eq j rows) as Ej.
    assert (Hci : (i mod rows < rows)%nat)
      by (apply Nat.mod_upper_bound; lia).
    assert (Hcj : (j mod rows < rows)%nat)
      by (apply Nat.mod_upper_bound; lia).
    assert (Hle : (i / rows <= j / rows)%nat)
      by (apply Nat.Div0.div_le_mono; lia).
    set (ri := (i / rows)%nat) in *. set (ci := (i mod rows)%nat) in *.
    set (rj := (j / rows)%nat) in *. set (cj := (j mod rows)%nat) in *.
    destruct (Nat.eq_dec ri rj) as [E|NE].
    + right. rewrite E in *. split; [reflexivity|].
      assert (ci < cj)%nat by nia. nia.
    + left. assert (ri + 1 <= rj)%nat by lia. nia.
Qed.


(** ** [sample_many_and_save]: the files it writes *)







Section BulkSavingFacts.

Context {G : Type} {RS : RandomSource G} {RL : RandomSourceLaws G}.

Variables (model : Model) (sigmas : list R) (eps : R) (T H W : nat).
Hypothesis model_ok : shape_preserving model.




End BulkSavingFacts.

Lemma batches_are_batches (x0 : Tensor) (n b : nat) (s : list nat) :
  shape x0 = n :: s -> wf x0 -> (1 <= b)%nat ->
  let l := map (fun j => slice_rows (j * b) (Nat.min b (n - j * b)) x0)
             (seq 0 ((n + b - 1) / b)) in
  Forall (is_batch s) l /\ list_sum (map rows l) = n.
Proof.
  intros Sx Wx Hb l. split.
  - apply Forall_forall. intros t Ht. apply in_map_iff in Ht.
    destruct Ht as (j & <- & Hj). apply in_seq in Hj.
    pose proof (batch_start_inside n b j Hb) as Hin.
    split; [|split].
    + unfold slice_rows. simpl. now rewrite Sx.
    + unfold slice_rows. simpl. discriminate.
    + apply (slice_rows_wf _ _ n s); [exact Sx | exact Wx | lia].
  - unfold l. rewrite map_map. unfold rows, slice_rows. simpl.
    rewrite sum_batch_rows. pose proof (batch_count_covers n b Hb). lia.
Qed.

Section BulkSavingTheorems.

Context {G : Type} {RS : RandomSource G} {RL : RandomSourceLaws G}.


(** On a dataset whose images do not have exactly one channel,
    [sample_many_and_save] raises before it writes a file: tiling the first
    image three times over gives [3 * C] channels, which [array_to_img]
    refuses unless [C = 1]. *)
Theorem sample_many_and_save_raises_on_colour (H W C : nat) (model : Model)
    (sigmas : list R) (batch_size : nat) (eps : R) (T n_images : nat)
    (w : World G) :
  (1 <= n_images)%nat -> (1 <= batch_size)%nat -> shape_preserving model ->
  C <> 1%nat ->
  sample_many_and_save [H; W; C] model sigmas batch_size eps T n_images w
  = Raise.
Proof.
  intros Hn Hbs Hm HC. unfold sample_many_and_save.
  set (b := Nat.min batch_size n_images).
  assert (Hb : (1 <= b)%nat) by (unfold b; lia).
  unfold bind at 1, draw_uniform.
  pose proof (uniform_shape [n_images; H; W; C] (rng w)) as Sx.
  pose proof (uniform_wf [n_images; H; W; C] (rng w)) as Wx.
  destruct (random_uniform [n_images; H; W; C] (rng w)) as [x0 g].
  simpl in Sx, Wx.
  unfold bind at 1, lift.
  rewrite (dataset_batch_run b n_images [H; W; C] x0 Sx Hb).
  destruct (batches_are_batches x0 n_images b [H; W; C] Sx Wx Hb)
    as [Fb _].
  assert (Hcount : (1 <= (n_images + b - 1) / b)%nat)
    by (apply Nat.div_le_lower_bound; lia).
  destruct ((n_images + b - 1) / b)%nat as [|k]; [lia|].
  cbn [seq map] in *. rewrite Nat.mul_0_l, Nat.sub_0_r in *.
  apply Forall_inv in Fb.
  set (first := slice_rows 0 (Nat.min b n_images) x0) in *.
  unfold bind at 1. cbn [for_each]. unfold bind at 1.
  unfold sample_many_and_save_iteration at 1. unfold bind at 1.
  destruct Fb as (Tf & Nf & Wf).
  destruct (sample_many_batch_shape model sigmas eps T first
              (mkWorld g (saved w) (printed w)) Hm Wf Nf)
    as (y & w' & E & Sy & Wy).
  rewrite E. unfold bind at 1, lift, unstack.
  cbn [_preprocess_image_to_save clip_by_value adds muls tmap shape].
  rewrite Sy. unfold first, slice_rows. cbn [shape tl]. rewrite Sx.
  cbn [tl].
  destruct (Nat.min b n_images) as [|r] eqn:Er; [lia|].
  cbn [seq map for_each]. unfold bind at 1.
  unfold sample_many_and_save_image at 1. unfold bind at 1, lift.
  unfold tile_channels. cbn [shape bind].
  unfold bind at 1, lift, array_to_img. cbn [shape].
  destruct (Nat.eqb_spec (3 * C) 1) as [E1|_]; [lia|].
  destruct (Nat.eqb_spec (3 * C) 3) as [E3|_]; [lia|].
  destruct (Nat.eqb_spec (3 * C) 4) as [E4|_]; [lia|].
  reflexivity.
Qed.

End BulkSavingTheorems.

(** ** [clamped] *)

(** [clamped] keeps the shape, leaves a tensor with values in [[0, 1]] as it
    is, and clamping twice is clamping once. *)
Theorem clamped_projection (x : Tensor) :
  shape (clamped x) = shape x
  /\ (values_within 0 1 x -> clamped x = x)
  /\ clamped (clamped x) = clamped x.
Proof.
  assert (Fix : forall t, values_within 0 1 t -> clamped t = t).
  { intros [s d] V. unfold clamped, clip_by_value, tmap, values_within in *.
    simpl in *. f_equal. rewrite <- (map_id d) at 2.
    apply map_ext_in. intros v Hv. rewrite Forall_forall in V.
    specialize (V v Hv).
    rewrite Rmin_left by lra. apply Rmax_left. lra. }
  split; [reflexivity|]. split; [apply Fix|].
  apply Fix. unfold clamped. apply clip_within. lra.
Qed.

(** ** The further properties at concrete inputs *)

Lemma loss_alternative_scales_loss_witness :
  let one := mkTensor [1; 1; 1; 1]%nat [1] in
  let two := mkTensor [1; 1; 1; 1]%nat [2] in
  (1 <= 10)%nat /\ (forall b, (b < 1)%nat -> tget two b <> 0)
  /\ exists v va,
       Losses.loss_per_batch 10 one two one two = Ret v
       /\ loss_per_batch_alternative one two one two = Ret va
       /\ va = INR 10 * v.
Proof.
  intros one two.
  assert (HL : (1 <= 10)%nat) by lia.
  assert (Hp : forall b, (b < 1)%nat -> tget two b <> 0).
  { intros b Hb. destruct b; [unfold tget; simpl; lra | lia]. }
  split; [exact HL|]. split; [exact Hp|].
  exact (loss_alternative_scales_loss 10 1 1 1 1 one two one two
           eq_refl eq_refl eq_refl eq_refl HL Hp).
Defined.

Lemma losses_raise_on_small_rank_witness :
  let m := mkTensor [2; 2]%nat [1; 2; 3; 4] in
  (length (shape m) < 3)%nat
  /\ Losses.loss_per_batch 10 m m m m = Raise
  /\ loss_per_batch_alternative m m m m = Raise.
Proof.
  intros m.
  assert (H3 : (length (shape m) < 3)%nat) by (simpl; lia).
  assert (H4 : (length (shape m) < 4)%nat) by (simpl; lia).
  destruct (losses_raise_on_small_rank 10 m m m m eq_refl eq_refl eq_refl)
    as [L A].
  split; [exact H3|]. split; [exact (L H3) | exact (A H4)].
Defined.

Lemma sample_many_raises_on_zero_witness :
  Nat.min 4 0 = 0%nat
  /\ sample_many (RS := Demo.source) [1; 1; 1]%nat Demo.unit_score [2; 1]
       4 (1 / 4) 3 0 Demo.world0 = Raise.
Proof.
  split; [reflexivity|].
  apply (sample_many_raises_on_zero (RS := Demo.source)). reflexivity.
Defined.

Lemma sample_and_save_zero_eps_witness :
  shape_preserving Demo.unit_score
  /\ snapshots_possible 3 [2; 2; 1]%nat
  /\ ([2; 1] = [] \/ last [2; 1] 0 <> 0)
  /\ returns
       (sample_and_save (RS := Demo.source) [2; 2; 1]%nat Demo.unit_score
          [2; 1] 0 3 1) Demo.world0
       (fun x _ => x = Demo.full [1; 2; 2; 1]%nat (1 / 2)).
Proof.
  assert (Hs : snapshots_possible 3 [2; 2; 1]%nat) by (left; lia).
  assert (Hl : [2; 1] = [] \/ last [2; 1] 0 <> 0) by (right; simpl; lra).
  split; [exact unit_score_shape_preserving|]. split; [exact Hs|].
  split; [exact Hl|].
  exact (sample_and_save_zero_eps (RL := Demo_laws) [2; 2; 1]%nat
           Demo.unit_score [2; 1] 3 1 Demo.world0
           unit_score_shape_preserving Hs Hl).
Defined.

Lemma sample_many_no_step_witness :
  (1 <= 3)%nat /\ (1 <= 2)%nat
  /\ sample_many (RS := Demo.source) [1; 1; 1]%nat Demo.unit_score [2; 1]
       2 (1 / 4) 0 3 Demo.world0
     = bind (draw_uniform [3; 1; 1; 1]%nat) (fun x => ret (Some x))
         Demo.world0.
Proof.
  assert (H3 : (1 <= 3)%nat) by lia.
  assert (H2 : (1 <= 2)%nat) by lia.
  split; [exact H3|]. split; [exact H2|].
  exact (sample_many_no_step (RL := Demo_laws) [1; 1; 1]%nat
           Demo.unit_score [2; 1] 2 (1 / 4) 0 3 Demo.world0 H3 H2
           (or_introl eq_refl)).
Defined.

Lemma sample_many_is_sample_and_save_witness :
  (1 <= 3 <= 128)%nat /\ (3 < 10)%nat /\ shape_preserving Demo.unit_score
  /\ sample_many (RS := Demo.source) [1; 1; 1]%nat Demo.unit_score [2; 1]
       128 (1 / 4) 3 3 Demo.world0
     = bind (sample_and_save [1; 1; 1]%nat Demo.unit_score [2; 1] (1 / 4)
               3 3)
         (fun x => ret (Some x)) Demo.world0.
Proof.
  assert (Hn : (1 <= 3 <= 128)%nat) by lia.
  assert (HT : (3 < 10)%nat) by lia.
  split; [exact Hn|]. split; [exact HT|].
  split; [exact unit_score_shape_preserving|].
  exact (sample_many_is_sample_and_save (RL := Demo_laws) [1; 1; 1]%nat
           Demo.unit_score [2; 1] 128 (1 / 4) 3 3 Demo.world0 Hn HT
           unit_score_shape_preserving).
Defined.

Lemma sample_and_save_snapshots_witness :
  shape_preserving Demo.unit_score
  /\ snapshots_possible 25 [1; 1; 1]%nat
  /\ returns
       (sample_and_save (RS := Demo.source) [1; 1; 1]%nat Demo.unit_score
          [2; 1] (1 / 4) 25 1) Demo.world0
       (fun _ w' =>
          exists added,
            saved w' = saved Demo.world0 ++ added
            /\ map fst added
               = [(1, 10); (1, 20); (2, 10); (2, 20)]%nat).
Proof.
  assert (Hs : snapshots_possible 25 [1; 1; 1]%nat).
  { right. exists 1%nat, 1%nat, 1%nat.
    split; [reflexivity|]. split; [lia|]. split; [lia|]. now left. }
  split; [exact unit_score_shape_preserving|]. split; [exact Hs|].
  destruct (sample_and_save_snapshots (RL := Demo_laws) [1; 1; 1]%nat
              Demo.unit_score [2; 1] (1 / 4) 25 1 Demo.world0
              unit_score_shape_preserving Hs)
    as (x & w' & E & _ & added & Sv & N & _).
  exists x, w'. split; [exact E|]. exists added. split; [exact Sv|].
  exact N.
Defined.

Lemma sample_and_save_raises_at_snapshot_witness :
  shape_preserving Demo.unit_score /\ [2; 1] <> [] /\ (10 <= 10)%nat
  /\ snapshot_raises 1 [2; 2; 2]%nat
  /\ sample_and_save (RS := Demo.source) [2; 2; 2]%nat Demo.unit_score
       [2; 1] (1 / 4) 10 1 Demo.world0 = Raise.
Proof.
  assert (Hne : [2; 1] <> []) by discriminate.
  assert (HT : (10 <= 10)%nat) by lia.
  assert (Hbad : snapshot_raises 1 [2; 2; 2]%nat).
  { right. split; [lia|]. exists 2%nat, 2%nat, 2%nat.
    split; [reflexivity|]. unfold supported_channels. lia. }
  split; [exact unit_score_shape_preserving|]. split; [exact Hne|].
  split; [exact HT|]. split; [exact Hbad|].
  exact (sample_and_save_raises_at_snapshot (RL := Demo_laws)
           [2; 2; 2]%nat Demo.unit_score [2; 1] (1 / 4) 10 1 Demo.world0
           unit_score_shape_preserving Hne HT Hbad).
Defined.

Lemma grid_square_images_fit_witness :
  (1 <= 100)%nat
  /\ (fst (grid_paste 100 28 28 2 99) + 28 + 2
      <= fst (grid_canvas 100 28 28 2))%nat.
Proof.
  assert (Hn : (1 <= 100)%nat) by lia.
  split; [exact Hn|].
  destruct (grid_square_images_fit 100 28 2 Hn) as [In _].
  assert (Hi : (99 < Nat.sqrt 100 * (100 / Nat.sqrt 100))%nat)
    by (vm_compute; lia).
  exact (proj2 (proj1 (In 99%nat Hi))).
Defined.



Lemma sample_many_and_save_raises_on_colour_witness :
  (1 <= 3)%nat /\ (1 <= 2)%nat /\ shape_preserving Demo.unit_score
  /\ 3%nat <> 1%nat
  /\ sample_many_and_save (RS := Demo.source) [2; 2; 3]%nat
       Demo.unit_score [2; 1] 2 (1 / 4) 3 3 Demo.world0 = Raise.
Proof.
  assert (H3 : (1 <= 3)%nat) by lia.
  assert (H2 : (1 <= 2)%nat) by lia.
  assert (HC : 3%nat <> 1%nat) by lia.
  split; [exact H3|]. split; [exact H2|].
  split; [exact unit_score_shape_preserving|]. split; [exact HC|].
  exact (sample_many_and_save_raises_on_colour (RL := Demo_laws) 2 2 3
           Demo.unit_score [2; 1] 2 (1 / 4) 3 3 Demo.world0 H3 H2
           unit_score_shape_preserving HC).
Defined.

Lemma clamped_projection_witness :
  values_within 0 1 (Demo.full [2%nat] (1 / 2))
  /\ clamped (Demo.full [2%nat] (1 / 2)) = Demo.full [2%nat] (1 / 2).
Proof.
  assert (V : values_within 0 1 (Demo.full [2%nat] (1 / 2))).
  { unfold values_within, Demo.full. simpl.
    repeat constructor; lra. }
  split; [exact V|].
  exact (proj1 (proj2 (clamped_projection _)) V).
Defined.
